(** * The declaration linker of the Acode plugin types

    A shallow embedding of the build script that chains the declaration
    files of [src/] into per-directory [index.d.ts] files and generates
    the root [index.d.ts] with its [declare module "acode"] block.

    The script works on JavaScript strings, which are sequences of UTF-16
    code units: the regular expression classes, [String.prototype.includes]
    and the default [Array.prototype.sort] all look at code units.  Strings
    are therefore lists of code units here.  The directory tree is an
    ordered tree of entries, the order of a listing being the order in
    which [readdirSync] returns the names. *)

From Stdlib Require Import List NArith Ascii String Bool Arith Lia.
From Stdlib Require Import Permutation Sorted DecimalString.
Import ListNotations.

(** ** JavaScript strings *)

Module JS.

Definition codeunit := N.
Definition jsstring := list codeunit.

(** An ASCII literal of the script as a JavaScript string. *)
Definition js (s : string) : jsstring :=
  map N_of_ascii (list_ascii_of_string s).
Arguments js s%_string.

Definition dquote : jsstring := [34%N].
Definition newline : jsstring := [10%N].
Definition tab : jsstring := [9%N].

Definition jsstring_eq_dec : forall a b : jsstring, {a = b} + {a <> b} :=
  list_eq_dec N.eq_dec.

(** [a === b] on strings. *)
Fixpoint streq (a b : jsstring) : bool :=
  match a, b with
  | [], [] => true
  | x :: a', y :: b' => N.eqb x y && streq a' b'
  | _, _ => false
  end.

Fixpoint startsWith (pat s : jsstring) : bool :=
  match pat, s with
  | [], _ => true
  | _ :: _, [] => false
  | x :: pat', y :: s' => N.eqb x y && startsWith pat' s'
  end.

(** [s.includes(pat)]: [pat] occurs at some position of [s]. *)
Fixpoint includes (s pat : jsstring) : bool :=
  startsWith pat s ||
  match s with
  | [] => false
  | _ :: s' => includes s' pat
  end.

(** [l.join(sep)]. *)
Fixpoint join (sep : jsstring) (l : list jsstring) : jsstring :=
  match l with
  | [] => []
  | [a] => a
  | a :: l' => a ++ sep ++ join sep l'
  end.

(** The order of the default [sort()]: strings compared code unit by code
    unit, a proper prefix before its extensions. *)
Fixpoint compare (a b : jsstring) : comparison :=
  match a, b with
  | [], [] => Eq
  | [], _ :: _ => Lt
  | _ :: _, [] => Gt
  | x :: a', y :: b' =>
      match N.compare x y with
      | Eq => compare a' b'
      | c => c
      end
  end.

Definition leb (a b : jsstring) : bool :=
  match compare a b with Gt => false | _ => true end.

Definition le (a b : jsstring) : Prop := compare a b <> Gt.
Definition lt (a b : jsstring) : Prop := compare a b = Lt.

Fixpoint insert (x : jsstring) (l : list jsstring) : list jsstring :=
  match l with
  | [] => [x]
  | y :: l' => if leb x y then x :: l else y :: insert x l'
  end.

(** [l.sort()] with the default comparison.  The names sorted by the script
    are pairwise distinct and the order is total, so the result does not
    depend on the sorting algorithm of the engine. *)
Definition sort (l : list jsstring) : list jsstring :=
  fold_right insert [] l.

(** *** The character classes of the regular expression *)

Definition between (lo hi c : N) : bool := N.leb lo c && N.leb c hi.

(** [\w] without the [u] and [i] flags: [A-Za-z0-9_]. *)
Definition is_word (c : codeunit) : bool :=
  between 48 57 c || between 65 90 c || N.eqb c 95 || between 97 122 c.

(** The line terminators, after which [^] matches under the [m] flag. *)
Definition is_lineTerminator (c : codeunit) : bool :=
  N.eqb c 10 || N.eqb c 13 || N.eqb c 8232 || N.eqb c 8233.

(** [\s]: the white space characters and the line terminators. *)
Definition is_space (c : codeunit) : bool :=
  between 9 13 c || N.eqb c 32 || N.eqb c 160 || N.eqb c 5760 ||
  between 8192 8202 c || N.eqb c 8232 || N.eqb c 8233 || N.eqb c 8239 ||
  N.eqb c 8287 || N.eqb c 12288 || N.eqb c 65279.

Fixpoint takeWhile (f : codeunit -> bool) (s : jsstring) : jsstring :=
  match s with
  | c :: s' => if f c then c :: takeWhile f s' else []
  | [] => []
  end.

Fixpoint dropWhile (f : codeunit -> bool) (s : jsstring) : jsstring :=
  match s with
  | c :: s' => if f c then dropWhile f s' else s
  | [] => []
  end.

(** *** [/^\t(interface|type)\s+(\w+)/gm] *)

(** [(interface|type)] at the head of [s]: the length matched and the rest.
    The alternatives are tried in order. *)
Definition keywordAt (s : jsstring) : option (nat * jsstring) :=
  if startsWith (js "interface") s then Some (9, skipn 9 s)
  else if startsWith (js "type") s then Some (4, skipn 4 s)
  else None.

(** The pattern after [^], tried at the head of [s]: the second group and
    the length of the whole match.  [\s] and [\w] are disjoint classes, so
    the greedy [\s+] takes the whole run of white space and backtracking
    into it cannot make [\w+] succeed; [\w+] takes the whole run of word
    characters. *)
Definition matchAt (s : jsstring) : option (jsstring * nat) :=
  match s with
  | c :: s1 =>
      if N.eqb c 9 then
        match keywordAt s1 with
        | Some (klen, s2) =>
            let ws := takeWhile is_space s2 in
            let name := takeWhile is_word (dropWhile is_space s2) in
            match ws, name with
            | _ :: _, _ :: _ =>
                Some (name, 1 + klen + List.length ws + List.length name)
            | _, _ => None
            end
        | None => None
        end
      else None
  | [] => None
  end.

(** [content.matchAll(re)], as the list of the second groups.  [skip] is
    the number of code units still inside the previous match (the search
    resumes at the end of a match), and [bol] tells whether the current
    position is the start of the input or follows a line terminator. *)
Fixpoint scan (skip : nat) (bol : bool) (s : jsstring) : list jsstring :=
  match s with
  | [] => []
  | c :: s' =>
      match skip with
      | S k => scan k (is_lineTerminator c) s'
      | O =>
          match (if bol then matchAt s else None) with
          | Some (name, len) => name :: scan (pred len) (is_lineTerminator c) s'
          | None => scan 0 (is_lineTerminator c) s'
          end
      end
  end.

Definition matchAll (content : jsstring) : list jsstring :=
  scan 0 true content.

(** *** [Set] of strings: insertion ordered, no element twice *)

Definition StringSet := list jsstring.

Definition has (s : StringSet) (x : jsstring) : bool := existsb (streq x) s.

Definition add (s : StringSet) (x : jsstring) : StringSet :=
  if has s x then s else s ++ [x].

End JS.

Import JS.

(** ** The directory tree *)

Module FS.

#[local] Unset Elimination Schemes.

Inductive entry : Type :=
| File (name : jsstring) (content : jsstring)
| Dir (name : jsstring) (children : list entry).

#[local] Set Elimination Schemes.

(** Induction over a tree, with the hypothesis for every child of a
    directory. *)
Section EntryInd.
Variable P : entry -> Prop.
Hypothesis P_File : forall p content, P (File p content).
Hypothesis P_Dir : forall p sub, Forall P sub -> P (Dir p sub).

Fixpoint entry_ind (e : entry) : P e :=
  match e with
  | File p content => P_File p content
  | Dir p sub =>
      P_Dir p sub
        ((fix children (l : list entry) : Forall P l :=
            match l with
            | [] => Forall_nil P
            | e' :: l' => Forall_cons e' (entry_ind e') (children l')
            end) sub)
  end.
End EntryInd.

Definition entryName (e : entry) : jsstring :=
  match e with
  | File p _ => p
  | Dir p _ => p
  end.

Inductive fs_error : Type :=
| EISDIR.

(** How a call ends: it returns, or an exception leaves it.  The files
    written before the exception stay written. *)
Inductive outcome : Type :=
| Done
| Threw (e : fs_error).

(** [writeFileSync(join(path, p), data)] in the listing of [path]: the file
    named [p] is overwritten in place, a directory of that name makes the
    call throw, and a new file is listed after the existing entries. *)
Fixpoint writeFileSync (l : list entry) (p data : jsstring) : option (list entry) :=
  match l with
  | [] => Some [File p data]
  | File q old :: l' =>
      if streq q p then Some (File p data :: l')
      else option_map (cons (File q old)) (writeFileSync l' p data)
  | Dir q sub :: l' =>
      if streq q p then None
      else option_map (cons (Dir q sub)) (writeFileSync l' p data)
  end.

(** The entry a name resolves to. *)
Fixpoint lookup (l : list entry) (p : jsstring) : option entry :=
  match l with
  | [] => None
  | e :: l' => if streq (entryName e) p then Some e else lookup l' p
  end.

(** [readFileSync(join(path, p), "utf-8")] where it succeeds. *)
Definition readFile (l : list entry) (p : jsstring) : option jsstring :=
  match lookup l p with
  | Some (File _ content) => Some content
  | _ => None
  end.

(** The listing of the directory reached from [l] along [path]. *)
Fixpoint dirAt (l : list entry) (path : list jsstring) : option (list entry) :=
  match path with
  | [] => Some l
  | p :: path' =>
      match lookup l p with
      | Some (Dir _ sub) => dirAt sub path'
      | _ => None
      end
  end.

End FS.

Import FS.

(** ** The script *)

Module Linker.

Definition INDEX : jsstring := js "index.d.ts".
Definition TEST : jsstring := js "test.ts".

Definition MARKER_DECLARE : jsstring := js "declare namespace Acode".
Definition MARKER_PLAIN : jsstring := js "namespace Acode".

(** [extractTypesFromNamespace(content)], on the global [collectedTypes]. *)
Definition extractTypesFromNamespace (content : jsstring)
    (collectedTypes : StringSet) : StringSet :=
  fold_left add (matchAll content) collectedTypes.

(** [`/// <reference path="./${p}/index.d.ts" />`] *)
Definition dirRef (p : jsstring) : jsstring :=
  js "/// <reference path=" ++ dquote ++ js "./" ++ p ++ js "/index.d.ts"
    ++ dquote ++ js " />".

(** [`/// <reference path="./${p}" />`] *)
Definition fileRef (p : jsstring) : jsstring :=
  js "/// <reference path=" ++ dquote ++ js "./" ++ p ++ dquote ++ js " />".

(** A [for ... of] loop over a listing whose body may throw: the entries
    after the one that threw are not visited. *)
Section Loop.
Context {St : Type} (body : entry -> St -> entry * St * outcome).

Fixpoint forEach (l : list entry) (s : St) : list entry * St * outcome :=
  match l with
  | [] => ([], s, Done)
  | e :: l' =>
      match body e s with
      | (e', s', Done) =>
          match forEach l' s' with
          | (l'', s'', o) => (e' :: l'', s'', o)
          end
      | (e', s', Threw x) => (e' :: l', s', Threw x)
      end
  end.
End Loop.

(** The marker test of [linkTypes]. *)
Definition hasMarker (content : jsstring) : bool :=
  includes content MARKER_DECLARE || includes content MARKER_PLAIN.

(** The end of [linkTypes]: the references are joined and written as the
    [index.d.ts] of the directory. *)
Definition writeIndex (r : list entry * (list jsstring * StringSet) * outcome)
    : list entry * StringSet * outcome :=
  match r with
  | (l, (refs, collectedTypes), Done) =>
      match writeFileSync l INDEX (join newline refs ++ newline) with
      | Some l' => (l', collectedTypes, Done)
      | None => (l, collectedTypes, Threw EISDIR)
      end
  | (l, (_, collectedTypes), Threw x) => (l, collectedTypes, Threw x)
  end.

(** The body of the loop of [linkTypes] for the entry [e], on the local
    [refs] and the global [collectedTypes].  The case analysis on the entry
    is the test [statSync(fullPath).isDirectory()].  The entry is returned
    as it is on disk afterwards. *)
Fixpoint visit (e : entry) (st : list jsstring * StringSet) {struct e}
    : entry * (list jsstring * StringSet) * outcome :=
  match e with
  | Dir p sub =>
      match writeIndex (forEach visit sub ([], snd st)) with
      | (sub', collectedTypes, Done) =>
          (Dir p sub', (fst st ++ [dirRef p], collectedTypes), Done)
      | (sub', collectedTypes, Threw x) =>
          (Dir p sub', (fst st, collectedTypes), Threw x)
      end
  | File p content =>
      if negb (streq p INDEX) && negb (streq p TEST) then
        (e,
         (fst st ++ [fileRef p],
          if hasMarker content
          then extractTypesFromNamespace content (snd st)
          else snd st),
         Done)
      else (e, st, Done)
  end.

(** [linkTypes(path)] on the listing of [path]. *)
Definition linkTypes (l : list entry) (collectedTypes : StringSet)
    : list entry * StringSet * outcome :=
  writeIndex (forEach visit l ([], collectedTypes)).

Definition exportLine (t : jsstring) : jsstring :=
  tab ++ js "export type " ++ t ++ js " = Acode." ++ t ++ js ";".

Definition sortedTypes (collectedTypes : StringSet) : list jsstring :=
  sort collectedTypes.

Definition generateModuleExports (collectedTypes : StringSet) : jsstring :=
  let exports := join newline (map exportLine (sortedTypes collectedTypes)) in
  js "declare module " ++ dquote ++ js "acode" ++ dquote ++ js " {" ++ newline
    ++ exports ++ newline ++ js "}".

Definition ROOT_REFS : list jsstring :=
  [ js "/// <reference path=" ++ dquote ++ js "./src/index.d.ts" ++ dquote ++ js " />";
    js "/// <reference path=" ++ dquote ++ js "./types/ace/index.d.ts" ++ dquote ++ js " />";
    js "/// <reference path=" ++ dquote ++ js "./types/require.d.ts" ++ dquote ++ js " />";
    js "/// <reference path=" ++ dquote ++ js "./types/xterm.d.ts" ++ dquote ++ js " />";
    js "/// <reference path=" ++ dquote ++ js "./types/html-tag-js.d.ts" ++ dquote ++ js " />" ].

Definition generateRootIndex (collectedTypes : StringSet) : jsstring :=
  let moduleExports := generateModuleExports collectedTypes in
  join newline ROOT_REFS ++ newline ++ newline ++ moduleExports ++ newline.

(** What a run leaves: the tree under [src/], the root [index.d.ts] when it
    was written, the final [collectedTypes] and how the run ended.  The
    three lines printed at the end are left out. *)
Record run : Type := {
  srcTree : list entry;
  rootIndex : option jsstring;
  finalTypes : StringSet;
  ending : outcome
}.

(** The script, from a fresh [collectedTypes], on the listing of [src/]. *)
Definition main (src : list entry) : run :=
  match linkTypes src [] with
  | (src', collectedTypes, Done) =>
      {| srcTree := src';
         rootIndex := Some (generateRootIndex collectedTypes);
         finalTypes := collectedTypes;
         ending := Done |}
  | (src', collectedTypes, Threw x) =>
      {| srcTree := src';
         rootIndex := None;
         finalTypes := collectedTypes;
         ending := Threw x |}
  end.

End Linker.

Import Linker.

(** ** What a run computes, entry by entry

    Closed forms of the three things a completed traversal leaves: the
    reference lines of a listing, the names collected from it, and the tree
    with every index written.  They are related to [linkTypes] by
    [linkTypes_clean] and [linkTypes_Done] below. *)

Module Closed.

(** The entries the loop passes over: files with a reserved name. *)
Definition skipped (e : entry) : bool :=
  match e with
  | File p _ => streq p INDEX || streq p TEST
  | Dir _ _ => false
  end.

(** An entry with a reserved name, file or directory. *)
Definition reservedName (e : entry) : bool :=
  streq (entryName e) INDEX || streq (entryName e) TEST.

Definition refLine (e : entry) : jsstring :=
  match e with
  | File p _ => fileRef p
  | Dir p _ => dirRef p
  end.

Definition refsOf (l : list entry) : list jsstring :=
  map refLine (filter (fun e => negb (skipped e)) l).

Definition indexText (refs : list jsstring) : jsstring :=
  join newline refs ++ newline.

Fixpoint collectEntry (e : entry) (c : StringSet) : StringSet :=
  match e with
  | File _ content =>
      if negb (skipped e) && hasMarker content
      then extractTypesFromNamespace content c
      else c
  | Dir _ sub => fold_left (fun acc e' => collectEntry e' acc) sub c
  end.

Definition collect (l : list entry) (c : StringSet) : StringSet :=
  fold_left (fun acc e' => collectEntry e' acc) l c.

(** The index of a listing can be written: the name [index.d.ts] does not
    resolve to a directory. *)
Definition writable (l : list entry) : bool :=
  match lookup l INDEX with
  | Some (Dir _ _) => false
  | _ => true
  end.

Fixpoint cleanEntry (e : entry) : bool :=
  match e with
  | File _ _ => true
  | Dir _ sub => forallb cleanEntry sub && writable sub
  end.

(** No directory of the tree has a subdirectory named [index.d.ts]. *)
Definition clean (l : list entry) : bool :=
  forallb cleanEntry l && writable l.

Definition putIndex (l : list entry) (data : jsstring) : list entry :=
  match writeFileSync l INDEX data with
  | Some l' => l'
  | None => l
  end.

Fixpoint linkedEntry (e : entry) : entry :=
  match e with
  | File _ _ => e
  | Dir p sub => Dir p (putIndex (map linkedEntry sub) (indexText (refsOf sub)))
  end.

Definition linked (l : list entry) : list entry :=
  putIndex (map linkedEntry l) (indexText (refsOf l)).

(** The closed form of one iteration of the loop. *)
Definition visit_closed (e : entry) : Prop :=
  forall st,
    if cleanEntry e
    then visit e st =
         (linkedEntry e,
          (fst st ++ refsOf [e], collectEntry e (snd st)), Done)
    else exists e' st' x, visit e st = (e', st', Threw x).

(** A file of the tree, at any depth, with its name and content. *)
Inductive fileIn : list entry -> jsstring -> jsstring -> Prop :=
| fileIn_here : forall l p content,
    In (File p content) l -> fileIn l p content
| fileIn_below : forall l q sub p content,
    In (Dir q sub) l -> fileIn sub p content -> fileIn l p content.

(** *** Declaration lines *)

(** A position that is the start of the text or follows a line
    terminator. *)
Definition lineStart (pre : jsstring) : Prop :=
  pre = [] \/ exists pre' c, pre = pre' ++ [c] /\ is_lineTerminator c = true.

Definition keyword (kw : jsstring) : Prop :=
  kw = js "interface" \/ kw = js "type".

(** The run of characters of a class stops where [post] starts. *)
Definition endsRun (f : codeunit -> bool) (post : jsstring) : Prop :=
  match post with
  | [] => True
  | c :: _ => f c = false
  end.

(** After [pre], [content] has a line made of one tab, the keyword
    [interface] or [type], white space within the line, and the
    identifier [name]. *)
Definition declaredAt (content pre name : jsstring) : Prop :=
  lineStart pre /\
  exists kw ws post,
    content = pre ++ tab ++ kw ++ ws ++ name ++ post /\
    keyword kw /\
    ws <> [] /\ forallb is_space ws = true /\
    forallb (fun c => negb (is_lineTerminator c)) ws = true /\
    name <> [] /\ forallb is_word name = true /\
    endsRun is_word post.

(** [pre] ends with a tab, a keyword and nothing but white space: a match
    that starts at that tab runs over the end of [pre]. *)
Definition afterBareKeyword (pre : jsstring) : Prop :=
  exists pre' kw ws,
    keyword kw /\ forallb is_space ws = true /\
    pre = pre' ++ tab ++ kw ++ ws.

(** Two marked texts with a declaration line of [Foo]. *)
Definition plain_declaration : jsstring :=
  js "namespace Acode {" ++ newline
    ++ tab ++ js "interface Foo {}" ++ newline
    ++ js "}".

Definition after_bare_keyword : jsstring :=
  js "namespace Acode {" ++ newline
    ++ tab ++ js "interface" ++ newline
    ++ tab ++ js "type Foo = string;" ++ newline
    ++ js "}".

(** *** The scenario of the specification *)

Definition scenario_b : jsstring :=
  js "declare namespace Acode { type Foo = string; }".

Definition scenario_c : jsstring :=
  js "declare namespace Acode {" ++ newline
    ++ tab ++ js "interface Bar {" ++ newline
    ++ tab ++ js "}" ++ newline
    ++ js "}" ++ newline.

Definition scenario (a : jsstring) : list entry :=
  [ File (js "a.ts") a;
    File (js "b.ts") scenario_b;
    Dir (js "sub") [File (js "c.ts") scenario_c] ].

(** The single test that the disjunction of [hasMarker] amounts to. *)
Definition hasPlainMarker (content : jsstring) : bool :=
  includes content MARKER_PLAIN.

(** The reference lines of a listing when every entry with a reserved
    name, directories included, is left out. *)
Definition refsWithoutReserved (l : list entry) : list jsstring :=
  map refLine (filter (fun e => negb (reservedName e)) l).

(** The reference line to the generated index of [src/]. *)
Definition OWN_INDEX_REF : jsstring :=
  js "/// <reference path=" ++ dquote ++ js "./src/index.d.ts" ++ dquote ++ js " />".

(** The fixed reference lines of the root artifact other than the one to
    the index of [src/]. *)
Definition externalRefs : list jsstring :=
  filter (fun r => negb (streq r OWN_INDEX_REF)) ROOT_REFS.

End Closed.

Import Closed.

(** ** Vocabulary for the properties of whole runs *)

Module Frame.

(** An entry other than a file named [index.d.ts]. *)
Definition notIndexFile (e : entry) : bool :=
  match e with
  | File p _ => negb (streq p INDEX)
  | Dir _ _ => true
  end.

Fixpoint stripEntry (e : entry) : entry :=
  match e with
  | File _ _ => e
  | Dir p sub => Dir p (filter notIndexFile (map stripEntry sub))
  end.

(** The tree without its files named [index.d.ts], at every depth. *)
Definition strip (l : list entry) : list entry :=
  filter notIndexFile (map stripEntry l).

(** After [pre], which ends at a line start, [content] goes on with one
    tab, the keyword [interface] or [type], white space of any kind, and
    the whole run of word characters [name]. *)
Definition capturedAt (content pre name : jsstring) : Prop :=
  lineStart pre /\
  exists kw ws post,
    content = pre ++ tab ++ kw ++ ws ++ name ++ post /\
    keyword kw /\
    ws <> [] /\ forallb is_space ws = true /\
    name <> [] /\ forallb is_word name = true /\
    endsRun is_word post.

(** A name without the path separator. *)
Definition noSlash (p : jsstring) : bool :=
  forallb (fun c => negb (N.eqb c 47)) p.

End Frame.

Import Frame.

(** ** The report of a run *)

Module Report.

(** [String(n)] for the size of a set: the decimal digits of [n]. *)
Definition decimal (n : nat) : jsstring :=
  js (NilZero.string_of_uint (Nat.to_uint n)).

(** The check mark U+2713, one code unit. *)
Definition CHECK : jsstring := [10003%N].

(** The three lines printed once the root artifact is written;
    [collectedTypes.size] is the number of elements of the set. *)
Definition report (collectedTypes : StringSet) : list jsstring :=
  [ CHECK ++ js " Linked types in src/";
    CHECK ++ js " Generated " ++ decimal (List.length collectedTypes)
      ++ js " type exports in declare module " ++ dquote ++ js "acode"
      ++ dquote;
    CHECK ++ js " Updated index.d.ts" ].

(** What a run prints on the standard output: the report comes after
    [linkTypes], so an exception that leaves [linkTypes] leaves nothing
    printed. *)
Definition stdout (src : list entry) : list jsstring :=
  match linkTypes src [] with
  | (_, collectedTypes, Done) => report collectedTypes
  | (_, _, Threw _) => []
  end.

End Report.

Import Report.

(** * Properties *)

(** Case analysis along [writeFileSync l p data = Some l']. *)
Ltac write_cases l IH :=
  let q := fresh "q" in
  let old := fresh "old" in
  let sub := fresh "sub" in
  let l1 := fresh "l1" in
  let E := fresh "E" in
  let Ew := fresh "Ew" in
  induction l as [|[q old|q sub] l IH];
  intros l' H; simpl in H;
  [ injection H as <-
  | destruct (streq q _) eqn:E;
    [ injection H as <-
    | destruct (writeFileSync l _ _) as [l1|] eqn:Ew; [|discriminate];
      simpl in H; injection H as <- ]
  | destruct (streq q _) eqn:E; [discriminate|];
    destruct (writeFileSync l _ _) as [l1|] eqn:Ew; [|discriminate];
    simpl in H; injection H as <- ].

(** ** Strings *)

Lemma streq_eq (a b : jsstring) : streq a b = true <-> a = b.
Proof.
  revert b; induction a as [|x a IH]; intros [|y b]; simpl; split;
    try congruence; try reflexivity.
  - intros H. apply andb_true_iff in H as [Hx Hs].
    apply N.eqb_eq in Hx. apply IH in Hs. congruence.
  - intros H. injection H as -> ->. rewrite N.eqb_refl. simpl.
    now apply IH.
Qed.

Lemma streq_refl (a : jsstring) : streq a a = true.
Proof. now apply streq_eq. Qed.

Lemma streq_neq (a b : jsstring) : streq a b = false <-> a <> b.
Proof.
  split.
  - intros H E. apply streq_eq in E. congruence.
  - intros H. destruct (streq a b) eqn:E; trivial.
    apply streq_eq in E. contradiction.
Qed.

Lemma streq_sym (a b : jsstring) : streq a b = streq b a.
Proof.
  destruct (streq a b) eqn:E1.
  - apply streq_eq in E1. subst. now rewrite streq_refl.
  - symmetry. apply streq_neq. apply streq_neq in E1. congruence.
Qed.

Lemma startsWith_app (pat s : jsstring) :
  startsWith pat s = true <-> exists r, s = pat ++ r.
Proof.
  revert s; induction pat as [|x pat IH]; intros s; simpl.
  - split; eauto.
  - destruct s as [|y s].
    + split; [discriminate | intros [r Hr]; discriminate].
    + rewrite andb_true_iff, N.eqb_eq, IH. split.
      * intros [-> [r ->]]. now exists r.
      * intros [r Hr]. injection Hr as -> ->. eauto.
Qed.

Lemma includes_app (s pat : jsstring) :
  includes s pat = true <-> exists l r, s = l ++ pat ++ r.
Proof.
  induction s as [|c s IH].
  - simpl. rewrite orb_false_r, startsWith_app. split.
    + intros [r Hr]. now exists [], r.
    + intros [l [r Hr]]. destruct l; simpl in Hr.
      * now exists r.
      * discriminate.
  - cbn [includes]. rewrite orb_true_iff, startsWith_app, IH. split.
    + intros [[r Hr] | [l [r Hr]]].
      * now exists [], r.
      * exists (c :: l), r. simpl. now f_equal.
    + intros [l [r Hr]]. destruct l as [|d l]; simpl in Hr.
      * left. now exists r.
      * right. injection Hr as -> ->. now exists l, r.
Qed.

(** ** Writing into a listing *)

Lemma writeFileSync_None (l : list entry) (p data : jsstring) :
  writeFileSync l p data = None <->
  exists q sub, lookup l p = Some (Dir q sub).
Proof.
  induction l as [|[q old|q sub] l IH]; simpl.
  - split; [discriminate | intros (q & sub & H); discriminate].
  - destruct (streq q p).
    + split; [discriminate | intros (q' & sub & H); discriminate].
    + rewrite <- IH. destruct (writeFileSync l p data); simpl;
        split; congruence.
  - destruct (streq q p).
    + split; eauto.
    + rewrite <- IH. destruct (writeFileSync l p data); simpl;
        split; congruence.
Qed.

Lemma writable_write (l : list entry) (data : jsstring) :
  writable l = true ->
  writeFileSync l INDEX data = Some (putIndex l data).
Proof.
  unfold writable, putIndex. intros H.
  destruct (writeFileSync l INDEX data) eqn:E; trivial.
  apply writeFileSync_None in E as (q & sub & E).
  rewrite E in H. discriminate.
Qed.

Lemma unwritable_write (l : list entry) (data : jsstring) :
  writable l = false -> writeFileSync l INDEX data = None.
Proof.
  unfold writable. intros H. apply writeFileSync_None.
  destruct (lookup l INDEX) as [[p c|p sub]|]; try discriminate. eauto.
Qed.

Lemma lookup_write (l l' : list entry) (p data q : jsstring) :
  writeFileSync l p data = Some l' ->
  lookup l' q = if streq p q then Some (File p data) else lookup l q.
Proof.
  revert l'; induction l as [|e l IH]; intros l' H.
  - simpl in H. injection H as <-. simpl. destruct (streq p q); reflexivity.
  - destruct e as [r old|r sub]; simpl in H.
    + destruct (streq r p) eqn:Erp.
      * injection H as <-. apply streq_eq in Erp. subst r. simpl.
        destruct (streq p q); reflexivity.
      * destruct (writeFileSync l p data) as [l1|] eqn:Ew; [|discriminate].
        simpl in H. injection H as <-. simpl.
        destruct (streq r q) eqn:Erq.
        -- apply streq_eq in Erq. subst q. rewrite streq_sym, Erp. reflexivity.
        -- now apply IH.
    + destruct (streq r p) eqn:Erp; [discriminate|].
      destruct (writeFileSync l p data) as [l1|] eqn:Ew; [|discriminate].
      simpl in H. injection H as <-. simpl.
      destruct (streq r q) eqn:Erq.
      * apply streq_eq in Erq. subst q. rewrite streq_sym, Erp. reflexivity.
      * now apply IH.
Qed.

(** ** The traversal in closed form *)

Lemma entryName_linked (e : entry) : entryName (linkedEntry e) = entryName e.
Proof. now destruct e. Qed.

Lemma lookup_map_linked (l : list entry) (p : jsstring) :
  lookup (map linkedEntry l) p = option_map linkedEntry (lookup l p).
Proof.
  induction l as [|e l IH]; simpl; trivial.
  rewrite entryName_linked. now destruct (streq (entryName e) p).
Qed.

Lemma writable_linked (l : list entry) :
  writable (map linkedEntry l) = writable l.
Proof.
  unfold writable. rewrite lookup_map_linked.
  now destruct (lookup l INDEX) as [[p c|p sub]|].
Qed.

Lemma refsOf_cons (e : entry) (l : list entry) :
  refsOf (e :: l) = (if skipped e then [] else [refLine e]) ++ refsOf l.
Proof. unfold refsOf. simpl. now destruct (skipped e). Qed.

Lemma skipped_guard (p content : jsstring) :
  negb (streq p INDEX) && negb (streq p TEST) = negb (skipped (File p content)).
Proof. simpl. now rewrite negb_orb. Qed.

Lemma forEach_visit_clean (l : list entry) :
  Forall visit_closed l ->
  forallb cleanEntry l = true ->
  forall refs c,
    forEach visit l (refs, c) =
    (map linkedEntry l, (refs ++ refsOf l, collect l c), Done).
Proof.
  induction 1 as [|e l He Hl IH]; intros Hc refs c.
  - simpl. unfold refsOf. simpl. now rewrite app_nil_r.
  - simpl in Hc. apply andb_true_iff in Hc as [Hce Hcl].
    specialize (He (refs, c)). rewrite Hce in He.
    cbn [forEach]. rewrite He. cbn [fst snd].
    rewrite (IH Hcl). rewrite refsOf_cons with (l := l).
    rewrite refsOf_cons with (l := []).
    unfold refsOf at 1. simpl filter. simpl map.
    rewrite !app_nil_r, <- app_assoc. reflexivity.
Qed.

Lemma forEach_visit_unclean (l : list entry) :
  Forall visit_closed l ->
  forallb cleanEntry l = false ->
  forall st, exists l' st' x, forEach visit l st = (l', st', Threw x).
Proof.
  induction 1 as [|e l He Hl IH]; intros Hc st.
  - discriminate.
  - simpl in Hc. specialize (He st). cbn [forEach].
    destruct (cleanEntry e).
    + simpl in Hc. rewrite He.
      destruct (IH Hc (fst st ++ refsOf [e], collectEntry e (snd st)))
        as (l' & st' & x & E).
      rewrite E. eauto.
    + destruct He as (e' & st' & x & E). rewrite E. eauto.
Qed.

Lemma visit_is_closed (e : entry) : visit_closed e.
Proof.
  induction e as [p content|p sub IH] using entry_ind; intros st.
  - cbn [cleanEntry visit linkedEntry collectEntry].
    rewrite (skipped_guard p content). rewrite refsOf_cons. unfold refsOf. simpl filter.
    simpl map. rewrite app_nil_r.
    destruct (skipped (File p content)); simpl.
    + rewrite app_nil_r. now destruct st.
    + reflexivity.
  - cbn [cleanEntry visit].
    destruct (forallb cleanEntry sub) eqn:Hc.
    + rewrite (forEach_visit_clean _ IH Hc). cbn [writeIndex andb].
      destruct (writable sub) eqn:Hw; rewrite <- writable_linked in Hw.
      * rewrite (writable_write _ _ Hw). cbn [linkedEntry collectEntry].
        unfold indexText. rewrite refsOf_cons. simpl skipped. cbn iota.
        unfold refsOf at 3. simpl. reflexivity.
      * rewrite (unwritable_write _ _ Hw). eauto.
    + destruct (forEach_visit_unclean _ IH Hc ([], snd st))
        as (l' & [refs' c'] & x & E).
      rewrite E. cbn [writeIndex andb]. eauto.
Qed.

(** On a clean tree the traversal completes and leaves the closed forms. *)
Lemma linkTypes_clean (l : list entry) (c : StringSet) :
  clean l = true ->
  linkTypes l c = (linked l, collect l c, Done).
Proof.
  unfold clean, linkTypes. intros H. apply andb_true_iff in H as [Hc Hw].
  rewrite <- writable_linked in Hw.
  rewrite forEach_visit_clean; trivial.
  - cbn [writeIndex]. rewrite (writable_write _ _ Hw). reflexivity.
  - apply Forall_forall. intros e _. apply visit_is_closed.
Qed.

(** On any other tree an exception leaves it. *)
Lemma linkTypes_unclean (l : list entry) (c : StringSet) :
  clean l = false ->
  exists l' c' x, linkTypes l c = (l', c', Threw x).
Proof.
  unfold clean, linkTypes. intros H.
  assert (Hall : Forall visit_closed l)
    by (apply Forall_forall; intros e _; apply visit_is_closed).
  destruct (forallb cleanEntry l) eqn:Hc.
  - simpl in H. rewrite <- writable_linked in H.
    rewrite forEach_visit_clean; trivial.
    cbn [writeIndex]. rewrite (unwritable_write _ _ H). eauto.
  - destruct (forEach_visit_unclean _ Hall Hc ([], c))
      as (l' & [refs' c'] & x & E).
    rewrite E. cbn [writeIndex]. eauto.
Qed.

Lemma linkTypes_Done (l l' : list entry) (c c' : StringSet) :
  linkTypes l c = (l', c', Done) ->
  clean l = true /\ l' = linked l /\ c' = collect l c.
Proof.
  intros H. destruct (clean l) eqn:Hc.
  - rewrite (linkTypes_clean _ _ Hc) in H. injection H as <- <-. auto.
  - destruct (linkTypes_unclean _ c Hc) as (l1 & c1 & x & E).
    rewrite E in H. discriminate.
Qed.

(** ** The set of collected names *)

Lemma has_In (s : StringSet) (x : jsstring) : has s x = true <-> In x s.
Proof.
  unfold has. rewrite existsb_exists. split.
  - intros (y & Hy & E). apply streq_eq in E. now subst.
  - intros H. exists x. split; trivial. apply streq_refl.
Qed.

Lemma add_In (s : StringSet) (x y : jsstring) :
  In y (add s x) <-> In y s \/ y = x.
Proof.
  unfold add. destruct (has s x) eqn:E.
  - apply has_In in E. split; [auto | intros [H | ->]; trivial].
  - rewrite in_app_iff. simpl. intuition congruence.
Qed.

Lemma add_NoDup (s : StringSet) (x : jsstring) : NoDup s -> NoDup (add s x).
Proof.
  unfold add. intros H. destruct (has s x) eqn:E; trivial.
  apply NoDup_app; trivial.
  - constructor; [intros [] | constructor].
  - intros y Hy [<- | []]. apply has_In in Hy. congruence.
Qed.

Lemma extract_In (content : jsstring) (c : StringSet) (y : jsstring) :
  In y (extractTypesFromNamespace content c) <-> In y c \/ In y (matchAll content).
Proof.
  unfold extractTypesFromNamespace. revert c.
  induction (matchAll content) as [|x l IH]; intros c; simpl.
  - tauto.
  - rewrite IH, add_In. intuition congruence.
Qed.

Lemma extract_NoDup (content : jsstring) (c : StringSet) :
  NoDup c -> NoDup (extractTypesFromNamespace content c).
Proof.
  unfold extractTypesFromNamespace. revert c.
  induction (matchAll content) as [|x l IH]; intros c H; simpl; trivial.
  apply IH. now apply add_NoDup.
Qed.

(** ** The two markers *)

Lemma includes_suffix (s a b : jsstring) :
  includes s (a ++ b) = true -> includes s b = true.
Proof.
  rewrite !includes_app. intros (l & r & ->).
  exists (l ++ a), r. now rewrite <- !app_assoc.
Qed.

(** C10: the test [content.includes("declare namespace Acode") ||
    content.includes("namespace Acode")] of [linkTypes] decides, on every
    content, exactly as the single test [content.includes("namespace
    Acode")]: the first marker ends with the second. *)
Theorem marker_disjunction_is_plain_marker (content : jsstring) :
  hasMarker content = hasPlainMarker content.
Proof.
  unfold hasMarker, hasPlainMarker.
  destruct (includes content MARKER_DECLARE) eqn:E; trivial.
  simpl. symmetry.
  apply (includes_suffix content (js "declare ") MARKER_PLAIN). exact E.
Qed.

(** ** What every traversal does to the collected names

    Whether it completes or not, a traversal changes [collectedTypes] only
    by the scans of the files it visits: a relation on sets that is
    reflexive, transitive and holds across the scan of every marked file
    with an unreserved name holds across the traversal. *)

Lemma fileIn_incl (l1 l2 : list entry) (p content : jsstring) :
  incl l1 l2 -> fileIn l1 p content -> fileIn l2 p content.
Proof.
  intros Hi H. destruct H as [l p content H | l q sub p content H Hs].
  - apply fileIn_here. now apply Hi.
  - apply fileIn_below with q sub; trivial. now apply Hi.
Qed.

Lemma writeIndex_collected r : snd (fst (writeIndex r)) = snd (snd (fst r)).
Proof.
  destruct r as [[l [refs c]] [|x]]; simpl; trivial.
  now destruct (writeFileSync l INDEX (join newline refs ++ newline)).
Qed.

Section CollectedRel.
Variable Q : StringSet -> StringSet -> Prop.
Variable F : jsstring -> jsstring -> Prop.
Hypothesis Q_refl : forall c, Q c c.
Hypothesis Q_trans : forall a b c, Q a b -> Q b c -> Q a c.
Hypothesis Q_scan : forall p content c,
  F p content -> skipped (File p content) = false ->
  hasMarker content = true ->
  Q c (extractTypesFromNamespace content c).

Let visit_rel (e : entry) : Prop :=
  (forall p content, fileIn [e] p content -> F p content) ->
  forall st, Q (snd st) (snd (snd (fst (visit e st)))).

Lemma forEach_collected_rel (l : list entry) :
  Forall visit_rel l ->
  (forall p content, fileIn l p content -> F p content) ->
  forall st, Q (snd st) (snd (snd (fst (forEach visit l st)))).
Proof.
  induction 1 as [|e l He Hl IH]; intros HF st.
  - apply Q_refl.
  - cbn [forEach].
    assert (H1 : Q (snd st) (snd (snd (fst (visit e st))))).
    { apply He. intros p content Hp. apply HF.
      apply fileIn_incl with [e]; trivial.
      intros x [<- | []]. now left. }
    destruct (visit e st) as [[e' s'] [|x]]; cbn [fst snd] in *; trivial.
    assert (H2 : Q (snd s') (snd (snd (fst (forEach visit l s'))))).
    { apply IH. intros p content Hp. apply HF.
      apply fileIn_incl with l; trivial. intros y Hy. now right. }
    destruct (forEach visit l s') as [[l'' s''] o]; cbn [fst snd] in *.
    now apply Q_trans with (snd s').
Qed.

Lemma visit_collected_rel (e : entry) : visit_rel e.
Proof.
  induction e as [p content|p sub IH] using entry_ind; intros HF st.
  - cbn [visit]. rewrite (skipped_guard p content).
    destruct (skipped (File p content)) eqn:Es; cbn [negb fst snd]; trivial.
    destruct (hasMarker content) eqn:Em; trivial.
    apply (Q_scan p); trivial. apply HF. apply fileIn_here. now left.
  - cbn [visit].
    assert (H1 : Q (snd st)
                   (snd (snd (fst (forEach visit sub ([], snd st)))))).
    { refine (forEach_collected_rel sub IH _ ([], snd st)).
      intros q content Hq. apply HF.
      apply fileIn_below with p sub; trivial. now left. }
    rewrite <- writeIndex_collected in H1.
    destruct (writeIndex (forEach visit sub ([], snd st)))
      as [[sub' c'] [|x]]; exact H1.
Qed.

Lemma linkTypes_collected_rel (l : list entry) (c : StringSet) :
  (forall p content, fileIn l p content -> F p content) ->
  Q c (snd (fst (linkTypes l c))).
Proof.
  intros HF. unfold linkTypes. rewrite writeIndex_collected.
  refine (forEach_collected_rel l _ HF ([], c)).
  apply Forall_forall. intros e _. apply visit_collected_rel.
Qed.
End CollectedRel.

Lemma main_finalTypes (src : list entry) :
  finalTypes (main src) = snd (fst (linkTypes src [])).
Proof.
  unfold main. now destruct (linkTypes src []) as [[l c] [|x]].
Qed.

(** The collected names of a run, complete or not, are pairwise distinct. *)
Lemma finalTypes_NoDup (src : list entry) : NoDup (finalTypes (main src)).
Proof.
  rewrite main_finalTypes.
  apply (linkTypes_collected_rel
           (fun a b => NoDup a -> NoDup b) (fun _ _ => True)); auto.
  - intros p content c _ _ _. apply extract_NoDup.
  - constructor.
Qed.

(** Every collected name was captured in a marked file with an unreserved
    name. *)
Lemma finalTypes_provenance (src : list entry) (name : jsstring) :
  In name (finalTypes (main src)) ->
  exists q text,
    fileIn src q text /\ skipped (File q text) = false /\
    hasMarker text = true /\ In name (matchAll text).
Proof.
  rewrite main_finalTypes. intros H.
  assert (G : forall n, In n (snd (fst (linkTypes src []))) ->
              In n [] \/
              exists q text,
                fileIn src q text /\ skipped (File q text) = false /\
                hasMarker text = true /\ In n (matchAll text)).
  { apply (linkTypes_collected_rel
             (fun a b => forall n, In n b -> In n a \/
                exists q text,
                  fileIn src q text /\ skipped (File q text) = false /\
                  hasMarker text = true /\ In n (matchAll text))
             (fun q text => fileIn src q text)); auto.
    - intros a b c Hab Hbc n Hn. destruct (Hbc n Hn) as [Hb | Hb]; auto.
    - intros p content c Hf Hs Hm n Hn. apply extract_In in Hn as [Hn | Hn];
        eauto 8. }
  destruct (G name H) as [[] | G']. exact G'.
Qed.

(** C5: visiting a file whose text contains neither marker leaves
    [collectedTypes] as it was, whatever the text looks like; and every
    name in the final set of a run was captured in some file of the tree
    whose text contains a marker, so a file without one contributes none. *)
Theorem unmarked_file_leaves_collected (p content : jsstring)
    (refs : list jsstring) (collectedTypes : StringSet) (src : list entry) :
  includes content MARKER_DECLARE = false ->
  includes content MARKER_PLAIN = false ->
  snd (snd (fst (visit (File p content) (refs, collectedTypes))))
    = collectedTypes /\
  forall name, In name (finalTypes (main src)) ->
    exists q text,
      fileIn src q text /\ hasMarker text = true /\ In name (matchAll text).
Proof.
  intros H1 H2. split.
  - cbn [visit]. unfold hasMarker. rewrite H1, H2.
    now destruct (negb (streq p INDEX) && negb (streq p TEST)).
  - intros name Hn.
    destruct (finalTypes_provenance src name Hn) as (q & text & A & _ & B & C).
    eauto.
Qed.

Lemma unmarked_file_leaves_collected_witness :
  includes (tab ++ js "interface Foo {}") MARKER_DECLARE = false /\
  includes (tab ++ js "interface Foo {}") MARKER_PLAIN = false /\
  snd (snd (fst (visit (File (js "a.d.ts") (tab ++ js "interface Foo {}"))
                   ([], [js "Bar"]))))
    = [js "Bar"].
Proof.
  split; [reflexivity | split; [reflexivity |]].
  apply (unmarked_file_leaves_collected
           (js "a.d.ts") (tab ++ js "interface Foo {}") [] [js "Bar"] []
           eq_refl eq_refl).
Defined.

(** ** The default sort order *)

Lemma compare_antisym (a b : jsstring) :
  JS.compare b a = CompOpp (JS.compare a b).
Proof.
  revert b; induction a as [|x a IH]; intros [|y b]; simpl; trivial.
  rewrite (N.compare_antisym x y).
  destruct (N.compare x y); simpl; trivial.
Qed.

Lemma leb_le (a b : jsstring) : leb a b = true <-> JS.le a b.
Proof.
  unfold leb, JS.le. destruct (JS.compare a b); split; congruence.
Qed.

Lemma leb_total (a b : jsstring) : leb a b = false -> JS.le b a.
Proof.
  unfold leb, JS.le. rewrite (compare_antisym a b).
  destruct (JS.compare a b); simpl; congruence.
Qed.

Lemma insert_Permutation (x : jsstring) (l : list jsstring) :
  Permutation (x :: l) (insert x l).
Proof.
  induction l as [|y l IH]; simpl; trivial.
  destruct (leb x y); trivial.
  apply perm_trans with (y :: x :: l); [apply perm_swap | now constructor].
Qed.

Lemma insert_HdRel (x y : jsstring) (l : list jsstring) :
  JS.le y x -> HdRel JS.le y l -> HdRel JS.le y (insert x l).
Proof.
  intros Hyx H. destruct l as [|z l]; simpl.
  - now constructor.
  - inversion H; subst. destruct (leb x z); now constructor.
Qed.

Lemma insert_Sorted (x : jsstring) (l : list jsstring) :
  Sorted JS.le l -> Sorted JS.le (insert x l).
Proof.
  induction 1 as [|y l Hs IH Hd]; simpl.
  - repeat constructor.
  - destruct (leb x y) eqn:E.
    + constructor; [now constructor |]. constructor. now apply leb_le.
    + constructor; trivial. apply insert_HdRel; trivial. now apply leb_total.
Qed.

Lemma sort_Permutation (l : list jsstring) : Permutation l (sort l).
Proof.
  induction l as [|x l IH]; simpl; trivial.
  apply perm_trans with (x :: sort l); [now constructor |].
  apply insert_Permutation.
Qed.

Lemma sort_Sorted (l : list jsstring) : Sorted JS.le (sort l).
Proof.
  induction l as [|x l IH]; simpl; [constructor |]. now apply insert_Sorted.
Qed.

Lemma compare_eq (a b : jsstring) : JS.compare a b = Eq -> a = b.
Proof.
  revert b; induction a as [|x a IH]; intros [|y b]; simpl; try discriminate;
    trivial.
  destruct (N.compare_spec x y) as [Hxy | Hxy | Hxy]; try discriminate.
  intros E. subst. f_equal. now apply IH.
Qed.

Lemma lt_trans (a b c : jsstring) : JS.lt a b -> JS.lt b c -> JS.lt a c.
Proof.
  unfold JS.lt. revert b c.
  induction a as [|x a IH]; intros [|y b] [|z c]; simpl; try discriminate;
    trivial.
  destruct (N.compare_spec x y) as [Hxy | Hxy | Hxy]; try discriminate;
    destruct (N.compare_spec y z) as [Hyz | Hyz | Hyz]; try discriminate;
    intros H1 H2; subst.
  - rewrite N.compare_refl. now apply IH with b.
  - now rewrite (proj2 (N.compare_lt_iff _ _)).
  - now rewrite (proj2 (N.compare_lt_iff _ _)).
  - rewrite (proj2 (N.compare_lt_iff x z)); trivial. lia.
Qed.

Lemma lt_asym (a b : jsstring) : JS.lt a b -> JS.lt b a -> False.
Proof.
  unfold JS.lt. intros H1 H2. rewrite (compare_antisym a b), H1 in H2.
  discriminate.
Qed.

Lemma insert_HdRel_lt (x y : jsstring) (l : list jsstring) :
  JS.lt y x -> HdRel JS.lt y l -> HdRel JS.lt y (insert x l).
Proof.
  intros Hyx H. destruct l as [|z l]; simpl.
  - now constructor.
  - inversion H; subst. destruct (leb x z); now constructor.
Qed.

Lemma insert_Sorted_lt (x : jsstring) (l : list jsstring) :
  ~ In x l -> Sorted JS.lt l -> Sorted JS.lt (insert x l).
Proof.
  intros Hx H. induction H as [|y l Hs IH Hd]; simpl.
  - repeat constructor.
  - unfold leb. destruct (JS.compare x y) eqn:E.
    + apply compare_eq in E. subst. exfalso. apply Hx. now left.
    + constructor; [now constructor |]. now constructor.
    + constructor.
      * apply IH. intros Hin. apply Hx. now right.
      * apply insert_HdRel_lt; trivial. unfold JS.lt.
        rewrite (compare_antisym x y), E. reflexivity.
Qed.

Lemma sort_Sorted_lt (l : list jsstring) : NoDup l -> Sorted JS.lt (sort l).
Proof.
  induction 1 as [|x l Hx Hl IH]; simpl; [constructor |].
  apply insert_Sorted_lt; trivial.
  intros Hin. apply Hx.
  apply (Permutation_in x (Permutation_sym (sort_Permutation l))). exact Hin.
Qed.

Lemma StronglySorted_lt_unique (l1 : list jsstring) :
  forall l2,
    StronglySorted JS.lt l1 -> StronglySorted JS.lt l2 ->
    Permutation l1 l2 -> l1 = l2.
Proof.
  induction l1 as [|a l1 IH]; intros l2 H1 H2 HP.
  - now apply Permutation_nil in HP.
  - destruct l2 as [|b l2].
    + apply Permutation_sym, Permutation_nil in HP. discriminate.
    + inversion H1 as [|? ? S1 F1]; subst.
      inversion H2 as [|? ? S2 F2]; subst.
      assert (E : a = b).
      { assert (Ha : In a (b :: l2))
          by (apply (Permutation_in a HP); now left).
        assert (Hb : In b (a :: l1))
          by (apply (Permutation_in b (Permutation_sym HP)); now left).
        destruct Ha as [Ha | Ha]; [congruence |].
        destruct Hb as [Hb | Hb]; [congruence |].
        rewrite Forall_forall in F1, F2.
        exfalso. apply (lt_asym a b); auto. }
      subst b. f_equal. apply IH; trivial.
      now apply Permutation_cons_inv with a.
Qed.

(** The sorted list of distinct names is the only one: whatever algorithm
    the engine sorts with, it returns [sort l]. *)
Lemma sort_unique (l l' : list jsstring) :
  NoDup l -> Permutation l l' -> Sorted JS.lt l' -> l' = sort l.
Proof.
  intros Hn HP Hs.
  assert (T : Relations_1.Transitive JS.lt)
    by (intros a b c; apply lt_trans).
  apply StronglySorted_lt_unique.
  - now apply Sorted_StronglySorted.
  - apply Sorted_StronglySorted; trivial. now apply sort_Sorted_lt.
  - apply perm_trans with l; [now apply Permutation_sym |].
    apply sort_Permutation.
Qed.

(** C4: the module block of the root artifact holds the export lines of
    the sorted names between its opening and closing lines, one line per
    collected name; the sorted names are the collected names, each once,
    and each is at most its successor, indeed strictly before it, in the
    order of [compare] (code unit by code unit, case sensitive). *)
Theorem module_block_sorted_exports (src : list entry) :
  let names := sortedTypes (finalTypes (main src)) in
  generateModuleExports (finalTypes (main src)) =
    js "declare module " ++ dquote ++ js "acode" ++ dquote ++ js " {"
      ++ newline ++ join newline (map exportLine names) ++ newline ++ js "}"
  /\ Permutation (finalTypes (main src)) names
  /\ NoDup names
  /\ List.length (map exportLine names) = List.length (finalTypes (main src))
  /\ Sorted JS.le names
  /\ Sorted JS.lt names.
Proof.
  intros names. unfold names, sortedTypes.
  pose proof (sort_Permutation (finalTypes (main src))) as HP.
  pose proof (finalTypes_NoDup src) as HN.
  split; [reflexivity |].
  split; [exact HP |].
  split; [now apply (Permutation_NoDup HP) |].
  split; [rewrite length_map; symmetry; now apply Permutation_length |].
  split; [apply sort_Sorted | now apply sort_Sorted_lt].
Qed.

(** ** The root artifact *)

(** C6, as stated: five reference lines that are the one to the index of
    [src/] and three external ones.  The array of [generateRootIndex] has
    five lines, so four of them are external. *)
Lemma root_refs_not_one_plus_three :
  List.length ROOT_REFS = 5 /\
  hd [] ROOT_REFS = OWN_INDEX_REF /\
  List.length externalRefs = 4 /\
  List.length externalRefs <> 3.
Proof. repeat split. vm_compute. discriminate. Qed.

(** C6, amended: the root artifact is the five fixed reference lines, the
    first to the generated index of [src/] and the other four to external
    declaration sources, each ended by a line feed, then an empty line,
    then the module block opened by [declare module "acode" {], then a
    final line feed. *)
Theorem root_artifact_layout (collectedTypes : StringSet) :
  exists own e1 e2 e3 e4 body,
    ROOT_REFS = [own; e1; e2; e3; e4] /\
    own = OWN_INDEX_REF /\
    externalRefs = [e1; e2; e3; e4] /\
    generateModuleExports collectedTypes =
      js "declare module " ++ dquote ++ js "acode" ++ dquote ++ js " {"
        ++ newline ++ body /\
    generateRootIndex collectedTypes =
      own ++ newline ++ e1 ++ newline ++ e2 ++ newline ++ e3 ++ newline
        ++ e4 ++ newline ++ newline
        ++ generateModuleExports collectedTypes ++ newline.
Proof.
  do 5 eexists.
  exists (join newline (map exportLine (sortedTypes collectedTypes))
            ++ newline ++ js "}").
  repeat split.
Qed.

(** ** The index of a directory *)

Lemma readFile_putIndex (l : list entry) (data : jsstring) :
  writable l = true -> readFile (putIndex l data) INDEX = Some data.
Proof.
  intros H. unfold readFile.
  rewrite (lookup_write l (putIndex l data) INDEX data INDEX).
  - now rewrite streq_refl.
  - now apply writable_write.
Qed.

Lemma readFile_linked (l : list entry) :
  writable l = true -> readFile (linked l) INDEX = Some (indexText (refsOf l)).
Proof.
  intros H. unfold linked. apply readFile_putIndex.
  now rewrite writable_linked.
Qed.

Lemma refsOf_all_skipped (l : list entry) :
  forallb skipped l = true -> refsOf l = [].
Proof.
  induction l as [|e l IH]; simpl; intros H; trivial.
  apply andb_true_iff in H as [He Hl]. rewrite refsOf_cons, He. now apply IH.
Qed.

Lemma collect_all_skipped (l : list entry) (c : StringSet) :
  forallb skipped l = true -> collect l c = c.
Proof.
  unfold collect. revert c.
  induction l as [|e l IH]; simpl; intros c H; trivial.
  apply andb_true_iff in H as [He Hl]. rewrite IH; trivial.
  destruct e as [p content|p sub]; [|discriminate].
  cbn [collectEntry]. now rewrite He.
Qed.

Lemma clean_all_skipped (l : list entry) :
  forallb skipped l = true -> clean l = true.
Proof.
  intros H. unfold clean. apply andb_true_iff. split.
  - induction l as [|e l IH]; simpl; trivial.
    simpl in H. apply andb_true_iff in H as [He Hl].
    destruct e; [|discriminate]. now apply IH.
  - unfold writable.
    induction l as [|e l IH]; simpl; trivial.
    simpl in H. apply andb_true_iff in H as [He Hl].
    destruct e as [p content|p sub]; [|discriminate].
    simpl. destruct (streq p INDEX); trivial. now apply IH.
Qed.

(** C8: on a listing with no entry, or with none but files named
    [index.d.ts] or [test.ts], [linkTypes] completes, leaves
    [collectedTypes] as it was, and the [index.d.ts] it writes is a single
    line feed. *)
Theorem empty_directory_index (l : list entry) (collectedTypes : StringSet) :
  forallb skipped l = true ->
  exists l',
    linkTypes l collectedTypes = (l', collectedTypes, Done) /\
    readFile l' INDEX = Some newline.
Proof.
  intros H. exists (linked l). split.
  - rewrite linkTypes_clean by now apply clean_all_skipped.
    now rewrite collect_all_skipped.
  - rewrite readFile_linked.
    + now rewrite refsOf_all_skipped.
    + apply clean_all_skipped in H. unfold clean in H.
      now apply andb_true_iff in H.
Qed.

Lemma empty_directory_index_witness :
  forallb skipped [File TEST (js "x"); File INDEX (js "old")] = true /\
  exists l',
    linkTypes [File TEST (js "x"); File INDEX (js "old")] [] = (l', [], Done) /\
    readFile l' INDEX = Some newline.
Proof.
  split; [reflexivity |].
  apply (empty_directory_index [File TEST (js "x"); File INDEX (js "old")] []).
  reflexivity.
Defined.

(** ** Completed runs *)

Lemma main_clean (src : list entry) :
  clean src = true ->
  main src =
    {| srcTree := linked src;
       rootIndex := Some (generateRootIndex (collect src []));
       finalTypes := collect src [];
       ending := Done |}.
Proof. intros H. unfold main. now rewrite linkTypes_clean. Qed.

Lemma main_Done (src : list entry) :
  ending (main src) = Done -> clean src = true.
Proof.
  intros H. destruct (clean src) eqn:Hc; trivial.
  destruct (linkTypes_unclean src [] Hc) as (l' & c' & x & E).
  unfold main in H. rewrite E in H. discriminate.
Qed.

Lemma lookup_In (l : list entry) (p : jsstring) (e : entry) :
  lookup l p = Some e -> In e l /\ entryName e = p.
Proof.
  induction l as [|e0 l IH]; simpl; [discriminate |].
  destruct (streq (entryName e0) p) eqn:E.
  - intros H. injection H as ->. apply streq_eq in E. auto.
  - intros H. destruct (IH H). auto.
Qed.

Lemma clean_parts (l : list entry) :
  clean l = true -> forallb cleanEntry l = true /\ writable l = true.
Proof. unfold clean. apply andb_true_iff. Qed.

Lemma lookup_linked (l : list entry) (p q : jsstring) (sub : list entry) :
  writable l = true ->
  lookup l p = Some (Dir q sub) ->
  lookup (linked l) p = Some (Dir q (linked sub)).
Proof.
  intros Hw Hl. unfold linked.
  rewrite (lookup_write (map linkedEntry l) _ INDEX
             (indexText (refsOf l)) p).
  - destruct (streq INDEX p) eqn:E.
    + apply streq_eq in E. subst p. unfold writable in Hw.
      rewrite Hl in Hw. discriminate.
    + rewrite lookup_map_linked, Hl. reflexivity.
  - apply writable_write. now rewrite writable_linked.
Qed.

(** The directories of the tree are those of the linked tree, each with
    its own index written. *)
Lemma dirAt_linked (path : list jsstring) :
  forall l sub,
    clean l = true -> dirAt l path = Some sub ->
    dirAt (linked l) path = Some (linked sub) /\ clean sub = true.
Proof.
  induction path as [|p path IH]; intros l sub Hc H; simpl in H.
  - injection H as <-. auto.
  - destruct (lookup l p) as [[q content|q sub0]|] eqn:El; try discriminate.
    apply clean_parts in Hc as [Hall Hw].
    assert (Hc0 : clean sub0 = true).
    { apply lookup_In in El as [Hin _].
      rewrite forallb_forall in Hall. apply (Hall _ Hin). }
    simpl. rewrite (lookup_linked l p q sub0 Hw El). now apply IH.
Qed.

Lemma filter_length_complement {A : Type} (f : A -> bool) (l : list A) :
  List.length (filter (fun x => negb (f x)) l)
    = List.length l - List.length (filter f l).
Proof.
  induction l as [|x l IH]; trivial.
  pose proof (filter_length_le f l) as Hle.
  cbn [filter]. destruct (f x); cbn [negb List.length]; rewrite IH; lia.
Qed.

(** C1, as stated, fails on a directory named [test.ts]: it is listed, its
    name is reserved, and the index written has a line for it. *)
Lemma reserved_directory_is_referenced :
  let src := [Dir TEST []] in
  ending (main src) = Done /\
  readFile (srcTree (main src)) INDEX = Some (indexText [dirRef TEST]) /\
  refsWithoutReserved src = [] /\
  readFile (srcTree (main src)) INDEX
    <> Some (indexText (refsWithoutReserved src)) /\
  List.length (refsOf src)
    <> List.length src - List.length (filter reservedName src).
Proof.
  repeat split; try reflexivity.
  - vm_compute. discriminate.
  - vm_compute. discriminate.
Qed.

(** C1, amended: in a completed run, the [index.d.ts] written in a
    directory of the tree is made of the reference lines of its listing as
    it was when the directory was read, in listing order, without the files
    named [index.d.ts] or [test.ts]: one direct line per remaining file,
    one line to [<name>/index.d.ts] per subdirectory whatever its name.
    Their number is that of the entries minus that of the files left
    out. *)
Theorem index_follows_listing (src : list entry) (path : list jsstring)
    (l : list entry) :
  ending (main src) = Done ->
  dirAt src path = Some l ->
  exists l',
    dirAt (srcTree (main src)) path = Some l' /\
    readFile l' INDEX
      = Some (join newline
                (map refLine (filter (fun e => negb (skipped e)) l))
              ++ newline) /\
    List.length (map refLine (filter (fun e => negb (skipped e)) l))
      = List.length l - List.length (filter skipped l).
Proof.
  intros Hd Hp. apply main_Done in Hd.
  rewrite (main_clean src Hd). cbn [srcTree].
  destruct (dirAt_linked path src l Hd Hp) as [H1 H2].
  exists (linked l). repeat split; trivial.
  - apply clean_parts in H2 as [_ Hw]. now apply readFile_linked.
  - rewrite length_map. apply filter_length_complement.
Qed.

Lemma index_follows_listing_witness :
  let src := [File (js "a.d.ts") [];
              Dir (js "sub") [File TEST []; File (js "b.d.ts") []]] in
  ending (main src) = Done /\
  dirAt src [js "sub"] = Some [File TEST []; File (js "b.d.ts") []] /\
  exists l',
    dirAt (srcTree (main src)) [js "sub"] = Some l' /\
    readFile l' INDEX = Some (fileRef (js "b.d.ts") ++ newline) /\
    1 = 2 - 1.
Proof.
  split; [reflexivity | split; [reflexivity |]].
  exact (index_follows_listing
           [File (js "a.d.ts") [];
            Dir (js "sub") [File TEST []; File (js "b.d.ts") []]]
           [js "sub"] [File TEST []; File (js "b.d.ts") []]
           eq_refl eq_refl).
Defined.

(** ** Directories with a reserved name *)

Lemma refsOf_app (l1 l2 : list entry) : refsOf (l1 ++ l2) = refsOf l1 ++ refsOf l2.
Proof. unfold refsOf. now rewrite filter_app, map_app. Qed.

Lemma visit_Dir_clean (p : jsstring) (sub : list entry)
    (refs : list jsstring) (c : StringSet) :
  clean sub = true ->
  visit (Dir p sub) (refs, c) =
    (Dir p (linked sub), (refs ++ [dirRef p], collect sub c), Done).
Proof.
  intros H. pose proof (visit_is_closed (Dir p sub) (refs, c)) as V.
  cbn [cleanEntry] in V. apply clean_parts in H as [Ha Hw].
  rewrite Ha, Hw in V. exact V.
Qed.

(** C9, as stated, fails for the name [index.d.ts]: the subdirectory is
    visited and gets its index, but the index of the parent is the path of
    that subdirectory, the write throws and the parent has no index. *)
Lemma index_named_directory_aborts :
  let src := [Dir INDEX []] in
  srcTree (main src) = [Dir INDEX [File INDEX newline]] /\
  ending (main src) = Threw EISDIR /\
  readFile (srcTree (main src)) INDEX = None /\
  rootIndex (main src) = None.
Proof. repeat split. Qed.

(** C9, amended: the test on the reserved names is made for files only.
    For a directory entry of any name, [index.d.ts] and [test.ts]
    included, the loop calls [linkTypes] on it, which writes its index,
    and appends the line to [<name>/index.d.ts] to the references of the
    parent; when the traversal of the parent completes, as it does with a
    subdirectory named [test.ts], that line is in the index of the parent
    at the place of the entry.  With a subdirectory named [index.d.ts] the
    index of the parent cannot be written: once the loop is over the write
    throws, the subdirectory keeping the index it was given. *)
Theorem reserved_name_applies_to_files_only (p : jsstring)
    (sub : list entry) (refs : list jsstring) (collectedTypes : StringSet) :
  clean sub = true ->
  visit (Dir p sub) (refs, collectedTypes) =
    (Dir p (linked sub), (refs ++ [dirRef p], collect sub collectedTypes), Done)
  /\ readFile (linked sub) INDEX = Some (indexText (refsOf sub))
  /\ (forall before after l' c',
        linkTypes (before ++ Dir p sub :: after) collectedTypes = (l', c', Done) ->
        readFile l' INDEX =
          Some (indexText (refsOf before ++ dirRef p :: refsOf after)))
  /\ linkTypes [Dir TEST sub] collectedTypes =
       ([Dir TEST (linked sub); File INDEX (indexText [dirRef TEST])],
        collect sub collectedTypes, Done)
  /\ linkTypes [Dir INDEX sub] collectedTypes =
       ([Dir INDEX (linked sub)], collect sub collectedTypes, Threw EISDIR).
Proof.
  intros Hc. split; [now apply visit_Dir_clean |].
  split; [apply readFile_linked; now apply clean_parts in Hc |].
  split; [| split].
  - intros before after l' c' H.
    apply linkTypes_Done in H as (Hcl & -> & _).
    apply clean_parts in Hcl as [_ Hw].
    rewrite (readFile_linked _ Hw), refsOf_app, refsOf_cons. reflexivity.
  - unfold linkTypes. cbn [forEach]. rewrite (visit_Dir_clean _ _ _ _ Hc).
    reflexivity.
  - unfold linkTypes. cbn [forEach]. rewrite (visit_Dir_clean _ _ _ _ Hc).
    reflexivity.
Qed.

Lemma reserved_name_applies_to_files_only_witness :
  clean [File (js "c.d.ts") []] = true /\
  linkTypes [Dir TEST [File (js "c.d.ts") []]] [] =
    ([Dir TEST [File (js "c.d.ts") [];
                File INDEX (fileRef (js "c.d.ts") ++ newline)];
      File INDEX (dirRef TEST ++ newline)],
     [], Done) /\
  linkTypes [Dir INDEX [File (js "c.d.ts") []]] [] =
    ([Dir INDEX [File (js "c.d.ts") [];
                 File INDEX (fileRef (js "c.d.ts") ++ newline)]],
     [], Threw EISDIR).
Proof.
  split; [reflexivity |].
  pose proof (reserved_name_applies_to_files_only
                TEST [File (js "c.d.ts") []] [] [] eq_refl)
    as (_ & _ & _ & H1 & H2).
  split; [exact H1 | exact H2].
Defined.

(** ** A second run *)

Lemma write_refsOf (l : list entry) (data : jsstring) :
  forall l', writeFileSync l INDEX data = Some l' -> refsOf l' = refsOf l.
Proof.
  write_cases l IH.
  - reflexivity.
  - apply streq_eq in E. subst q. reflexivity.
  - rewrite !(refsOf_cons (File q old)). f_equal. now apply IH.
  - rewrite !(refsOf_cons (Dir q sub)). f_equal. now apply IH.
Qed.

Lemma putIndex_refsOf (l : list entry) (data : jsstring) :
  refsOf (putIndex l data) = refsOf l.
Proof.
  unfold putIndex. destruct (writeFileSync l INDEX data) eqn:E; trivial.
  now apply write_refsOf with data.
Qed.

Lemma map_linked_refsOf (l : list entry) : refsOf (map linkedEntry l) = refsOf l.
Proof.
  induction l as [|e l IH]; trivial.
  cbn [map]. rewrite !refsOf_cons, IH. now destruct e.
Qed.

Lemma linked_refsOf (l : list entry) : refsOf (linked l) = refsOf l.
Proof. unfold linked. now rewrite putIndex_refsOf, map_linked_refsOf. Qed.

Lemma collect_cons (e : entry) (l : list entry) (c : StringSet) :
  collect (e :: l) c = collect l (collectEntry e c).
Proof. reflexivity. Qed.

Lemma write_collect (l : list entry) (data : jsstring) :
  forall l', writeFileSync l INDEX data = Some l' ->
  forall c, collect l' c = collect l c.
Proof.
  write_cases l IH; intros c.
  - reflexivity.
  - apply streq_eq in E. subst q. reflexivity.
  - rewrite !collect_cons. now apply IH.
  - rewrite !collect_cons. now apply IH.
Qed.

Lemma putIndex_collect (l : list entry) (data : jsstring) (c : StringSet) :
  collect (putIndex l data) c = collect l c.
Proof.
  unfold putIndex. destruct (writeFileSync l INDEX data) eqn:E; trivial.
  now apply write_collect with data.
Qed.

Lemma collect_map_linked (l : list entry) :
  Forall (fun e => forall c, collectEntry (linkedEntry e) c = collectEntry e c) l ->
  forall c, collect (map linkedEntry l) c = collect l c.
Proof.
  induction 1 as [|e l He Hl IH]; intros c; trivial.
  cbn [map]. now rewrite !collect_cons, He, IH.
Qed.

Lemma collectEntry_linked (e : entry) :
  forall c, collectEntry (linkedEntry e) c = collectEntry e c.
Proof.
  induction e as [p content|p sub IH] using entry_ind; intros c; trivial.
  cbn [linkedEntry collectEntry].
  change (collect (putIndex (map linkedEntry sub) (indexText (refsOf sub))) c
          = collect sub c).
  now rewrite putIndex_collect, collect_map_linked.
Qed.

Lemma linked_collect (l : list entry) (c : StringSet) :
  collect (linked l) c = collect l c.
Proof.
  unfold linked. rewrite putIndex_collect. apply collect_map_linked.
  apply Forall_forall. intros e _. apply collectEntry_linked.
Qed.

Lemma write_map_linked (l : list entry) (p data : jsstring) :
  writeFileSync (map linkedEntry l) p data
    = option_map (map linkedEntry) (writeFileSync l p data).
Proof.
  induction l as [|[q old|q sub] l IH]; simpl; trivial.
  - destruct (streq q p); trivial. rewrite IH.
    now destruct (writeFileSync l p data).
  - destruct (streq q p); trivial. rewrite IH.
    now destruct (writeFileSync l p data).
Qed.

Lemma write_twice (l : list entry) (p data : jsstring) :
  forall l', writeFileSync l p data = Some l' ->
  writeFileSync l' p data = Some l'.
Proof.
  write_cases l IH; simpl.
  - now rewrite streq_refl.
  - now rewrite streq_refl.
  - rewrite E, (IH l1); trivial.
  - rewrite E, (IH l1); trivial.
Qed.

Lemma putIndex_twice (l : list entry) (data : jsstring) :
  putIndex (putIndex l data) data = putIndex l data.
Proof.
  unfold putIndex at 2 3. destruct (writeFileSync l INDEX data) as [l'|] eqn:E.
  - unfold putIndex. now rewrite (write_twice l INDEX data l' E).
  - unfold putIndex. now rewrite E.
Qed.

Lemma map_linked_putIndex (l : list entry) (data : jsstring) :
  map linkedEntry (putIndex l data) = putIndex (map linkedEntry l) data.
Proof.
  unfold putIndex. rewrite write_map_linked.
  now destruct (writeFileSync l INDEX data).
Qed.

Lemma linked_twice_from (l : list entry) :
  Forall (fun e => linkedEntry (linkedEntry e) = linkedEntry e) l ->
  linked (linked l) = linked l.
Proof.
  intros H. unfold linked at 1. rewrite linked_refsOf. unfold linked.
  rewrite map_linked_putIndex.
  assert (Hm : map linkedEntry (map linkedEntry l) = map linkedEntry l).
  { induction H as [|e l He Hl IH]; trivial. cbn [map]. now rewrite He, IH. }
  rewrite Hm. apply putIndex_twice.
Qed.

Lemma linkedEntry_twice (e : entry) : linkedEntry (linkedEntry e) = linkedEntry e.
Proof.
  induction e as [p content|p sub IH] using entry_ind; trivial.
  cbn [linkedEntry]. f_equal.
  change (linked (linked sub) = linked sub). now apply linked_twice_from.
Qed.

Lemma linked_twice (l : list entry) : linked (linked l) = linked l.
Proof.
  apply linked_twice_from. apply Forall_forall. intros e _.
  apply linkedEntry_twice.
Qed.

Lemma write_forallb_clean (l : list entry) (p data : jsstring) :
  forall l', writeFileSync l p data = Some l' ->
  forallb cleanEntry l' = forallb cleanEntry l.
Proof.
  write_cases l IH; simpl; trivial.
  - now apply IH.
  - f_equal. now apply IH.
Qed.

Lemma writable_putIndex (l : list entry) (data : jsstring) :
  writable l = true -> writable (putIndex l data) = true.
Proof.
  intros H. unfold writable.
  rewrite (lookup_write l (putIndex l data) INDEX data INDEX).
  - now rewrite streq_refl.
  - now apply writable_write.
Qed.

Lemma clean_linked_from (l : list entry) :
  Forall (fun e => cleanEntry e = true -> cleanEntry (linkedEntry e) = true) l ->
  clean l = true -> clean (linked l) = true.
Proof.
  intros H Hc. apply clean_parts in Hc as [Ha Hw].
  rewrite <- writable_linked in Hw.
  unfold clean, linked. apply andb_true_iff. split.
  - rewrite (write_forallb_clean (map linkedEntry l) INDEX
               (indexText (refsOf l)) _ (writable_write _ _ Hw)).
    clear Hw. induction H as [|e l He Hl IH]; trivial.
    simpl in Ha. apply andb_true_iff in Ha as [Hae Hal].
    simpl. rewrite (He Hae). now apply IH.
  - now apply writable_putIndex.
Qed.

Lemma cleanEntry_linked (e : entry) :
  cleanEntry e = true -> cleanEntry (linkedEntry e) = true.
Proof.
  induction e as [p content|p sub IH] using entry_ind; trivial.
  cbn [linkedEntry cleanEntry]. intros H.
  change (clean (linked sub) = true). now apply clean_linked_from.
Qed.

Lemma clean_linked (l : list entry) : clean l = true -> clean (linked l) = true.
Proof.
  apply clean_linked_from. apply Forall_forall. intros e _.
  apply cleanEntry_linked.
Qed.

(** C3: when a run completes, a second run on the tree it left completes
    too and leaves the same tree, hence the same [index.d.ts] in every
    directory, and the same root artifact.  (A run being a function of the
    tree, equal trees give equal artifacts.) *)
Theorem second_run_changes_nothing (src : list entry) :
  ending (main src) = Done ->
  main (srcTree (main src)) = main src.
Proof.
  intros H. apply main_Done in H.
  rewrite (main_clean src H). cbn [srcTree].
  rewrite (main_clean (linked src) (clean_linked src H)).
  now rewrite linked_twice, linked_collect.
Qed.

Lemma second_run_changes_nothing_witness :
  ending (main (scenario [])) = Done /\
  main (srcTree (main (scenario []))) = main (scenario []).
Proof.
  split; [reflexivity |].
  apply (second_run_changes_nothing (scenario [])). reflexivity.
Defined.

(** ** The scenario *)

(** C7, as stated, fails on its last two parts: [type Foo] of [b.ts]
    follows a brace on the line of the namespace, not a tab at the start
    of a line, and is not captured. *)
Lemma scenario_does_not_collect_Foo :
  let r := main (scenario []) in
  hasMarker [] = false /\
  ending r = Done /\
  finalTypes r = [js "Bar"] /\
  ~ In (js "Foo") (finalTypes r) /\
  option_map (fun text => includes text (exportLine (js "Foo"))) (rootIndex r)
    = Some false.
Proof.
  split; [reflexivity |].
  split; [reflexivity |].
  split; [reflexivity |].
  split; [| reflexivity].
  vm_compute. intros [H | []]. discriminate.
Qed.

(** C7, amended: whatever the marker-free text of [a.ts], the run
    completes; the index of the directory has the three lines to [a.ts],
    [b.ts] and [sub/index.d.ts] in that order; the collected set is
    [{Bar}]; and the module block has the one line
    [export type Bar = Acode.Bar;]. *)
Theorem scenario_outcome (a : jsstring) :
  hasMarker a = false ->
  let r := main (scenario a) in
  ending r = Done /\
  readFile (srcTree r) INDEX =
    Some (fileRef (js "a.ts") ++ newline ++ fileRef (js "b.ts") ++ newline
            ++ dirRef (js "sub") ++ newline) /\
  finalTypes r = [js "Bar"] /\
  generateModuleExports (finalTypes r) =
    js "declare module " ++ dquote ++ js "acode" ++ dquote ++ js " {"
      ++ newline ++ tab ++ js "export type Bar = Acode.Bar;" ++ newline
      ++ js "}".
Proof.
  intros Ha r.
  assert (Hc : clean (scenario a) = true) by reflexivity.
  assert (Hf : finalTypes r = [js "Bar"]).
  { unfold r. rewrite (main_clean _ Hc). cbn [finalTypes].
    unfold scenario. rewrite collect_cons. cbn [collectEntry].
    rewrite Ha, andb_false_r. reflexivity. }
  unfold r in *. rewrite Hf. rewrite (main_clean _ Hc). cbn [ending srcTree].
  repeat split.
Qed.

Lemma scenario_outcome_witness :
  hasMarker (js "export {};") = false /\
  let r := main (scenario (js "export {};")) in
  ending r = Done /\
  readFile (srcTree r) INDEX =
    Some (fileRef (js "a.ts") ++ newline ++ fileRef (js "b.ts") ++ newline
            ++ dirRef (js "sub") ++ newline) /\
  finalTypes r = [js "Bar"] /\
  generateModuleExports (finalTypes r) =
    js "declare module " ++ dquote ++ js "acode" ++ dquote ++ js " {"
      ++ newline ++ tab ++ js "export type Bar = Acode.Bar;" ++ newline
      ++ js "}".
Proof.
  split; [reflexivity |].
  exact (scenario_outcome (js "export {};") eq_refl).
Defined.

(** ** The scan of a marked file *)

Ltac chars H :=
  repeat (rewrite ?orb_true_iff, ?andb_true_iff, ?N.leb_le, ?N.eqb_eq in H).

Lemma is_word_not_space (c : codeunit) : is_word c = true -> is_space c = false.
Proof.
  intros H. destruct (is_space c) eqn:E; trivial. exfalso.
  unfold is_word, between in H. unfold is_space, between in E.
  chars H. chars E. lia.
Qed.

Lemma is_lineTerminator_space (c : codeunit) :
  is_lineTerminator c = true -> is_space c = true.
Proof.
  unfold is_lineTerminator, is_space, between. intros H. chars H.
  repeat rewrite orb_true_iff. repeat rewrite andb_true_iff.
  repeat rewrite N.leb_le. repeat rewrite N.eqb_eq. lia.
Qed.

Lemma is_lineTerminator_not_word (c : codeunit) :
  is_lineTerminator c = true -> is_word c = false.
Proof.
  intros H. apply is_lineTerminator_space in H.
  destruct (is_word c) eqn:E; trivial.
  apply is_word_not_space in E. congruence.
Qed.

Lemma takeWhile_run (f : codeunit -> bool) (a b : jsstring) :
  forallb f a = true -> endsRun f b -> takeWhile f (a ++ b) = a.
Proof.
  induction a as [|x a IH]; simpl; intros Ha Hb.
  - destruct b as [|y b]; trivial. simpl in *. now rewrite Hb.
  - apply andb_true_iff in Ha as [Hx Ha]. rewrite Hx. f_equal. now apply IH.
Qed.

Lemma dropWhile_run (f : codeunit -> bool) (a b : jsstring) :
  forallb f a = true -> endsRun f b -> dropWhile f (a ++ b) = b.
Proof.
  induction a as [|x a IH]; simpl; intros Ha Hb.
  - destruct b as [|y b]; trivial. simpl in *. now rewrite Hb.
  - apply andb_true_iff in Ha as [Hx Ha]. rewrite Hx. now apply IH.
Qed.

Lemma takeWhile_dropWhile (f : codeunit -> bool) (s : jsstring) :
  s = takeWhile f s ++ dropWhile f s /\
  forallb f (takeWhile f s) = true /\
  endsRun f (dropWhile f s).
Proof.
  induction s as [|c s (IH1 & IH2 & IH3)]; simpl; auto.
  destruct (f c) eqn:E; simpl.
  - rewrite E, IH2. repeat split; trivial. now f_equal.
  - auto.
Qed.

Lemma keywordAt_keyword (kw r : jsstring) :
  keyword kw -> keywordAt (kw ++ r) = Some (List.length kw, r).
Proof. intros [-> | ->]; reflexivity. Qed.

Lemma keywordAt_inv (s r : jsstring) (k : nat) :
  keywordAt s = Some (k, r) ->
  exists kw, keyword kw /\ s = kw ++ r /\ k = List.length kw.
Proof.
  unfold keywordAt.
  destruct (startsWith (js "interface") s) eqn:E1.
  - apply startsWith_app in E1 as [r0 ->]. intros H. injection H as <- <-.
    exists (js "interface"). repeat split. now left.
  - destruct (startsWith (js "type") s) eqn:E2; [|discriminate].
    apply startsWith_app in E2 as [r0 ->]. intros H. injection H as <- <-.
    exists (js "type"). repeat split. now right.
Qed.

Lemma nonempty_run_word (name post : jsstring) :
  name <> [] -> forallb is_word name = true -> endsRun is_space (name ++ post).
Proof.
  destruct name as [|c name]; [congruence |]. simpl. intros _ H.
  apply andb_true_iff in H as [H _]. now apply is_word_not_space.
Qed.

(** The pattern matches a declaration line at its tab and captures the
    identifier. *)
Lemma matchAt_declaration (kw ws name post : jsstring) :
  keyword kw ->
  ws <> [] -> forallb is_space ws = true ->
  name <> [] -> forallb is_word name = true ->
  endsRun is_word post ->
  matchAt (tab ++ kw ++ ws ++ name ++ post)
    = Some (name, 1 + List.length kw + List.length ws + List.length name).
Proof.
  intros Hk Hw1 Hw2 Hn1 Hn2 Hp.
  change (tab ++ kw ++ ws ++ name ++ post)
    with (9%N :: kw ++ ws ++ name ++ post).
  cbn [matchAt]. change (N.eqb 9 9) with true. cbn iota.
  rewrite (keywordAt_keyword kw _ Hk).
  pose proof (nonempty_run_word name post Hn1 Hn2) as Hr.
  rewrite (dropWhile_run is_space ws _ Hw2 Hr).
  rewrite (takeWhile_run is_space ws _ Hw2 Hr).
  rewrite (takeWhile_run is_word name _ Hn2 Hp).
  destruct ws; [congruence |]. destruct name; [congruence |]. reflexivity.
Qed.

(** What a match of the pattern is made of. *)
Lemma matchAt_inv (s name : jsstring) (len : nat) :
  matchAt s = Some (name, len) ->
  exists kw ws post,
    s = tab ++ kw ++ ws ++ name ++ post /\
    keyword kw /\
    ws <> [] /\ forallb is_space ws = true /\
    name <> [] /\ forallb is_word name = true /\
    len = List.length (tab ++ kw ++ ws ++ name).
Proof.
  destruct s as [|c s1]; [discriminate |]. cbn [matchAt].
  destruct (N.eqb c 9) eqn:Ec; [|discriminate]. apply N.eqb_eq in Ec. subst c.
  destruct (keywordAt s1) as [[klen s2]|] eqn:Ek; [|discriminate].
  apply keywordAt_inv in Ek as (kw & Hkw & -> & ->).
  destruct (takeWhile_dropWhile is_space s2) as (E1 & E2 & _).
  destruct (takeWhile_dropWhile is_word (dropWhile is_space s2))
    as (E3 & E4 & _).
  cbn zeta.
  destruct (takeWhile is_space s2) as [|w ws] eqn:Ews; [discriminate |].
  destruct (takeWhile is_word (dropWhile is_space s2)) as [|n ns] eqn:Ens;
    [discriminate |].
  intros H. injection H as <- <-.
  exists kw, (w :: ws), (dropWhile is_word (dropWhile is_space s2)).
  repeat split; trivial; try discriminate.
  - change (tab ++ kw ++ (w :: ws) ++ (n :: ns) ++ dropWhile is_word (dropWhile is_space s2))
      with (9%N :: kw ++ (w :: ws) ++ ((n :: ns) ++ dropWhile is_word (dropWhile is_space s2))).
    rewrite <- E3, <- E1. reflexivity.
  - change (tab ++ kw ++ (w :: ws) ++ n :: ns)
      with (9%N :: kw ++ (w :: ws) ++ n :: ns).
    cbn [List.length]. rewrite !length_app. cbn [List.length]. lia.
Qed.

Lemma last_in_tail (pre' x y : jsstring) (c : codeunit) :
  pre' ++ [c] = x ++ y -> y <> [] -> In c y.
Proof.
  intros E Hy. destruct (exists_last Hy) as (y' & d & ->).
  rewrite app_assoc in E. apply app_inj_tail in E as [_ ->].
  apply in_or_app. right. now left.
Qed.

Lemma lineStart_tail (c : codeunit) (pre : jsstring) :
  lineStart (c :: pre) -> lineStart pre.
Proof.
  intros [H | (pre' & d & E & Hd)]; [discriminate |].
  destruct pre as [|x pre]; [now left |]. right.
  destruct pre' as [|y pre']; simpl in E.
  - discriminate.
  - injection E as _ E. eauto.
Qed.

Lemma lineStart_single (c : codeunit) :
  lineStart [c] -> is_lineTerminator c = true.
Proof.
  intros [H | (pre' & d & E & Hd)]; [discriminate |].
  destruct pre' as [|y pre']; simpl in E.
  - now injection E as ->.
  - injection E as _ E. destruct pre'; discriminate.
Qed.

Lemma afterBareKeyword_cons (c : codeunit) (pre : jsstring) :
  afterBareKeyword pre -> afterBareKeyword (c :: pre).
Proof.
  intros (pre' & kw & ws & Hk & Hw & ->).
  exists (c :: pre'), kw, ws. auto.
Qed.

Lemma keyword_no_lineTerminator (kw : jsstring) (c : codeunit) :
  keyword kw -> In c (tab ++ kw) -> is_lineTerminator c = false.
Proof.
  intros Hk Hc.
  assert (H : forallb (fun d => negb (is_lineTerminator d)) (tab ++ kw) = true)
    by (destruct Hk as [-> | ->]; reflexivity).
  rewrite forallb_forall in H. apply H in Hc.
  now destruct (is_lineTerminator c).
Qed.

Lemma forallb_app_l (f : codeunit -> bool) (a b : jsstring) :
  forallb f (a ++ b) = true -> forallb f a = true.
Proof. rewrite forallb_app. intros H. now apply andb_true_iff in H. Qed.

(** A match that starts before a line start reached after [pre] ends
    before it, unless [pre] ends in a bare keyword. *)
Lemma match_ends_before (pre rest name : jsstring) (len : nat) :
  lineStart pre -> pre <> [] -> ~ afterBareKeyword pre ->
  matchAt (pre ++ tab ++ rest) = Some (name, len) ->
  1 <= len < List.length pre.
Proof.
  intros Hls Hne Hab Hm.
  destruct Hls as [-> | (pre' & c & Epre & Hc)]; [congruence |].
  apply matchAt_inv in Hm
    as (kw & ws & post & E & Hk & Hw1 & Hw2 & Hn1 & Hn2 & ->).
  assert (Hword : forall x y, pre' ++ [c] = x ++ y -> y <> [] ->
                    forallb is_word y = true -> False).
  { intros x y Exy Hy Hall. pose proof (last_in_tail _ _ _ _ Exy Hy) as Hin.
    rewrite forallb_forall in Hall. apply Hall in Hin.
    apply is_lineTerminator_not_word in Hc. congruence. }
  split.
  { change (tab ++ kw ++ ws ++ name) with (9%N :: kw ++ ws ++ name).
    cbn [List.length]. lia. }
  rewrite (app_assoc tab kw) in E.
  apply app_eq_app in E as [l [[E1 E2] | [E1 E2]]].
  - (* the tab and the keyword lie within [pre] *)
    apply app_eq_app in E2 as [l2 [[E3 E4] | [E3 E4]]].
    + (* [pre] stops within the white space *)
      exfalso. apply Hab. exists [], kw, l. repeat split; trivial.
      subst ws. now apply forallb_app_l in Hw2.
    + (* the white space lies within [pre] *)
      apply app_eq_app in E4 as [l3 [[E5 E6] | [E5 E6]]].
      * (* [pre] stops within the identifier, or right after it *)
        exfalso. destruct l3 as [|d l3].
        -- rewrite app_nil_r in E5. subst l2 l.
           apply (Hword ((tab ++ kw) ++ ws) name); trivial.
           rewrite <- Epre, E1. now rewrite <- !app_assoc.
        -- simpl in E6. injection E6 as <- _. subst name.
           rewrite forallb_app in Hn2. apply andb_true_iff in Hn2 as [_ Hn2].
           simpl in Hn2. discriminate.
      * (* the whole match lies within [pre] *)
        destruct l3 as [|d l3].
        -- exfalso. rewrite app_nil_r in E5. subst l2 l.
           apply (Hword ((tab ++ kw) ++ ws) name); trivial.
           rewrite <- Epre, E1. now rewrite <- !app_assoc.
        -- rewrite E1, E3, E5. rewrite !length_app. cbn [List.length]. lia.
  - (* [pre] stops within the tab and the keyword *)
    exfalso.
    assert (Hin' : In c (tab ++ kw)).
    { rewrite E1, Epre. apply in_or_app. left. apply in_or_app. right.
      now left. }
    apply (keyword_no_lineTerminator kw c Hk) in Hin'. congruence.
Qed.

(** The scan reaches a match that starts at a line start after [pre]: the
    matches before it end before it. *)
Lemma scan_reaches (rest name : jsstring) (len : nat) :
  matchAt (tab ++ rest) = Some (name, len) ->
  forall pre skip bol,
    lineStart pre -> ~ afterBareKeyword pre ->
    skip < List.length pre \/ (pre = [] /\ skip = 0 /\ bol = true) ->
    In name (scan skip bol (pre ++ tab ++ rest)).
Proof.
  intros Hm. induction pre as [|c pre IH]; intros skip bol Hls Hab Hk.
  - destruct Hk as [Hk | (_ & -> & ->)]; [simpl in Hk; lia |].
    change ([] ++ tab ++ rest) with (9%N :: rest).
    change (tab ++ rest) with (9%N :: rest) in Hm.
    cbn [scan]. rewrite Hm. now left.
  - assert (Hls' : lineStart pre) by now apply lineStart_tail in Hls.
    assert (Hab' : ~ afterBareKeyword pre).
    { intros H. apply Hab. now apply afterBareKeyword_cons. }
    assert (H0 : 0 < List.length pre \/
                 (pre = [] /\ 0 = 0 /\ is_lineTerminator c = true)).
    { destruct pre as [|d pre].
      - right. repeat split. now apply lineStart_single.
      - left. simpl. lia. }
    change ((c :: pre) ++ tab ++ rest) with (c :: (pre ++ tab ++ rest)).
    destruct skip as [|k]; cbn [scan].
    + destruct bol.
      * destruct (matchAt (c :: pre ++ tab ++ rest)) as [[n' len']|] eqn:E.
        -- right. apply IH; trivial. left.
           apply (match_ends_before (c :: pre) rest n' len') in E;
             trivial; [| discriminate].
           simpl in E. lia.
        -- now apply IH.
      * now apply IH.
    + apply IH; trivial. destruct Hk as [Hk | (Hk & _)]; [| discriminate].
      simpl in Hk. left. lia.
Qed.

(** The identifier of a declaration line is among the captures of the
    scan, unless the line follows a bare keyword. *)
Lemma matchAll_declared (content pre name : jsstring) :
  declaredAt content pre name -> ~ afterBareKeyword pre ->
  In name (matchAll content).
Proof.
  intros (Hls & kw & ws & post & -> & Hk & Hw1 & Hw2 & _ & Hn1 & Hn2 & Hp) Hab.
  unfold matchAll.
  apply (scan_reaches (kw ++ ws ++ name ++ post) name
           (1 + List.length kw + List.length ws + List.length name)); trivial.
  - now apply matchAt_declaration.
  - destruct pre; [right; auto | left; simpl; lia].
Qed.

(** ** Collected names of a completed run *)

Lemma collectEntry_mono (e : entry) :
  forall c x, In x c -> In x (collectEntry e c).
Proof.
  induction e as [p content|p sub IH] using entry_ind; intros c x H.
  - cbn [collectEntry].
    destruct (negb (skipped (File p content)) && hasMarker content); trivial.
    apply extract_In. now left.
  - cbn [collectEntry]. revert c H.
    induction IH as [|e l He Hl IHl]; intros c H; simpl; trivial.
    apply IHl. now apply He.
Qed.

Lemma collect_mono (l : list entry) (c : StringSet) (x : jsstring) :
  In x c -> In x (collect l c).
Proof.
  unfold collect. revert c. induction l as [|e l IH]; intros c H; simpl; trivial.
  apply IH. now apply collectEntry_mono.
Qed.

Lemma collect_In_entry (l : list entry) (e : entry) (x : jsstring) :
  In e l -> (forall c, In x (collectEntry e c)) ->
  forall c, In x (collect l c).
Proof.
  induction l as [|e0 l IH]; intros Hin He c; [destruct Hin |].
  rewrite collect_cons. destruct Hin as [<- | Hin].
  - apply collect_mono. apply He.
  - now apply IH.
Qed.

Lemma collect_fileIn (l : list entry) (p content x : jsstring) :
  fileIn l p content ->
  skipped (File p content) = false -> hasMarker content = true ->
  In x (matchAll content) ->
  forall c, In x (collect l c).
Proof.
  intros Hf Hs Hm Hx. induction Hf as [l p content Hin | l q sub p content Hin Hf IH].
  - apply (collect_In_entry l (File p content)); trivial.
    intros c. cbn [collectEntry]. rewrite Hs, Hm. cbn [negb andb].
    apply extract_In. now right.
  - apply (collect_In_entry l (Dir q sub)); trivial.
    intros c. cbn [collectEntry]. apply (IH Hs Hm Hx).
Qed.

Lemma afterBareKeyword_has_tab (pre : jsstring) :
  afterBareKeyword pre -> In 9%N pre.
Proof.
  intros (pre' & kw & ws & _ & _ & ->). apply in_or_app. right. now left.
Qed.

(** C2, as stated, fails in two ways.  A marked file named [test.ts] (or
    [index.d.ts]) is not read at all.  And in a file that is read, a
    declaration line that follows a line made of a tab and a bare keyword
    is inside the match started on that line, whose [\s+] runs over the
    line break: the keyword of the second line is captured, not its
    identifier. *)
Lemma declared_names_not_collected :
  (let src := [File TEST plain_declaration] in
   fileIn src TEST plain_declaration /\
   hasMarker plain_declaration = true /\
   declaredAt plain_declaration (js "namespace Acode {" ++ newline) (js "Foo") /\
   ending (main src) = Done /\
   finalTypes (main src) = []) /\
  (let src := [File (js "b.d.ts") after_bare_keyword] in
   fileIn src (js "b.d.ts") after_bare_keyword /\
   hasMarker after_bare_keyword = true /\
   declaredAt after_bare_keyword
     (js "namespace Acode {" ++ newline ++ tab ++ js "interface" ++ newline)
     (js "Foo") /\
   ending (main src) = Done /\
   finalTypes (main src) = [js "type"] /\
   ~ In (js "Foo") (finalTypes (main src))).
Proof.
  split.
  - split; [apply fileIn_here; now left |].
    split; [reflexivity |].
    split; [| split; reflexivity].
    split.
    + right. exists (js "namespace Acode {"), 10%N. split; reflexivity.
    + exists (js "interface"), (js " "), (js " {}" ++ newline ++ js "}").
      split; [reflexivity |]. split; [now left |].
      repeat split; discriminate.
  - split; [apply fileIn_here; now left |].
    split; [reflexivity |].
    split; [| split; [reflexivity | split; [reflexivity |]]].
    + split.
      * right.
        exists (js "namespace Acode {" ++ newline ++ tab ++ js "interface"),
               10%N.
        split; reflexivity.
      * exists (js "type"), (js " "), (js " = string;" ++ newline ++ js "}").
        split; [reflexivity |]. split; [now right |].
        repeat split; discriminate.
    + vm_compute. intros [H | []]. discriminate.
Qed.

(** C2, amended: in a completed run, for a file of the tree that is not
    named [index.d.ts] or [test.ts] and whose text contains a marker, the
    identifier of every declaration line (one tab at the start of the
    line, [interface] or [type], white space, the identifier) is in the
    final set, once, provided the text before the line does not end with
    a tab, one of the two keywords and nothing but white space. *)
Theorem declared_names_collected (src : list entry)
    (p content pre name : jsstring) :
  ending (main src) = Done ->
  fileIn src p content ->
  p <> INDEX -> p <> TEST ->
  hasMarker content = true ->
  declaredAt content pre name ->
  ~ afterBareKeyword pre ->
  In name (finalTypes (main src)) /\
  count_occ jsstring_eq_dec (finalTypes (main src)) name = 1.
Proof.
  intros Hd Hf Hp1 Hp2 Hm Hdecl Hab.
  assert (Hin : In name (finalTypes (main src))).
  { apply main_Done in Hd. rewrite (main_clean src Hd). cbn [finalTypes].
    apply (collect_fileIn src p content); trivial.
    - simpl. apply streq_neq in Hp1, Hp2. now rewrite Hp1, Hp2.
    - now apply matchAll_declared with pre. }
  split; trivial.
  apply NoDup_count_occ'; trivial. apply finalTypes_NoDup.
Qed.

Lemma declared_names_collected_witness :
  let src := [File (js "a.d.ts") scenario_c;
              Dir (js "sub") [File (js "c.ts") scenario_c]] in
  ending (main src) = Done /\
  fileIn src (js "c.ts") scenario_c /\
  hasMarker scenario_c = true /\
  declaredAt scenario_c (js "declare namespace Acode {" ++ newline) (js "Bar") /\
  In (js "Bar") (finalTypes (main src)) /\
  count_occ jsstring_eq_dec (finalTypes (main src)) (js "Bar") = 1.
Proof.
  assert (Hf : fileIn [File (js "a.d.ts") scenario_c;
                       Dir (js "sub") [File (js "c.ts") scenario_c]]
                 (js "c.ts") scenario_c).
  { apply fileIn_below with (js "sub") [File (js "c.ts") scenario_c].
    - right. now left.
    - apply fileIn_here. now left. }
  assert (Hdecl : declaredAt scenario_c
                    (js "declare namespace Acode {" ++ newline) (js "Bar")).
  { split.
    - right. exists (js "declare namespace Acode {"), 10%N. split; reflexivity.
    - exists (js "interface"), (js " "),
        (js " {" ++ newline ++ tab ++ js "}" ++ newline ++ js "}" ++ newline).
      split; [reflexivity |]. split; [now left |].
      repeat split; discriminate. }
  split; [reflexivity |]. split; [exact Hf |].
  split; [reflexivity |]. split; [exact Hdecl |].
  apply (declared_names_collected _ (js "c.ts") scenario_c
           (js "declare namespace Acode {" ++ newline) (js "Bar"));
    trivial; try discriminate.
  intros H. apply afterBareKeyword_has_tab in H. vm_compute in H.
  repeat (destruct H as [H | H]; [discriminate |]). exact H.
Defined.

(** ** When a run completes *)



(** ** What a run leaves untouched *)

Lemma strip_cons (e : entry) (l : list entry) :
  strip (e :: l) =
  (if notIndexFile (stripEntry e) then [stripEntry e] else []) ++ strip l.
Proof. unfold strip. simpl. now destruct (notIndexFile (stripEntry e)). Qed.

Lemma write_strip (l : list entry) (data : jsstring) :
  forall l', writeFileSync l INDEX data = Some l' -> strip l' = strip l.
Proof.
  write_cases l IH.
  - reflexivity.
  - apply streq_eq in E. subst q. rewrite !strip_cons.
    cbn [stripEntry notIndexFile]. now rewrite streq_refl.
  - rewrite !strip_cons. f_equal. now apply IH.
  - rewrite !strip_cons. f_equal. now apply IH.
Qed.

Lemma writeIndex_strip r :
  strip (fst (fst (writeIndex r))) = strip (fst (fst r)).
Proof.
  destruct r as [[l [refs c]] [|x]]; simpl; trivial.
  destruct (writeFileSync l INDEX (join newline refs ++ newline)) eqn:E;
    simpl; trivial.
  now apply write_strip with (join newline refs ++ newline).
Qed.

Lemma forEach_strip (l : list entry) :
  Forall (fun e => forall st, stripEntry (fst (fst (visit e st))) = stripEntry e) l ->
  forall st : list jsstring * StringSet,
    strip (fst (fst (forEach visit l st))) = strip l.
Proof.
  induction 1 as [|e l He Hl IH]; intros st; trivial.
  cbn [forEach]. specialize (He st).
  destruct (visit e st) as [[e' s'] [|x]]; cbn [fst] in He.
  - specialize (IH s').
    destruct (forEach visit l s') as [[l'' s''] o]; cbn [fst] in *.
    now rewrite !strip_cons, He, IH.
  - cbn [fst]. now rewrite !strip_cons, He.
Qed.

Lemma visit_strip (e : entry) :
  forall st, stripEntry (fst (fst (visit e st))) = stripEntry e.
Proof.
  induction e as [p content|p sub IH] using entry_ind; intros st.
  - cbn [visit].
    now destruct (negb (streq p INDEX) && negb (streq p TEST)).
  - cbn [visit].
    pose proof (writeIndex_strip (forEach visit sub ([], snd st))) as H.
    rewrite (forEach_strip sub IH) in H.
    destruct (writeIndex (forEach visit sub ([], snd st)))
      as [[sub' c'] [|x]]; cbn [fst] in *; cbn [stripEntry]; f_equal;
      exact H.
Qed.

(** X2: whether it completes or not, a run changes nothing but files
    named [index.d.ts]: without them, the tree it leaves is the tree it
    was given, entry for entry and in the same order. *)
Theorem run_writes_index_files_only (src : list entry) :
  strip (srcTree (main src)) = strip src.
Proof.
  assert (H : strip (fst (fst (linkTypes src []))) = strip src).
  { unfold linkTypes. rewrite writeIndex_strip. apply forEach_strip.
    apply Forall_forall. intros e _. apply visit_strip. }
  unfold main. now destruct (linkTypes src []) as [[l c] [|x]].
Qed.

(** ** Where collected names come from *)

(** A match of the pattern at the head of [s] is a capture at the start
    of [s]: the identifier is the whole run of word characters. *)
Lemma matchAt_captured (s name : jsstring) (len : nat) :
  matchAt s = Some (name, len) -> capturedAt s [] name.
Proof.
  destruct s as [|c s1]; [discriminate |]. cbn [matchAt].
  destruct (N.eqb c 9) eqn:Ec; [|discriminate]. apply N.eqb_eq in Ec. subst c.
  destruct (keywordAt s1) as [[klen s2]|] eqn:Ek; [|discriminate].
  apply keywordAt_inv in Ek as (kw & Hkw & -> & ->).
  destruct (takeWhile_dropWhile is_space s2) as (E1 & E2 & _).
  destruct (takeWhile_dropWhile is_word (dropWhile is_space s2))
    as (E3 & E4 & E5).
  cbn zeta.
  destruct (takeWhile is_space s2) as [|w ws] eqn:Ews; [discriminate |].
  destruct (takeWhile is_word (dropWhile is_space s2)) as [|n ns] eqn:Ens;
    [discriminate |].
  intros H. injection H as <- _.
  split; [now left |].
  exists kw, (w :: ws), (dropWhile is_word (dropWhile is_space s2)).
  split.
  - change ([] ++ tab ++ kw ++ (w :: ws) ++ (n :: ns)
              ++ dropWhile is_word (dropWhile is_space s2))
      with (9%N :: kw ++ (w :: ws)
              ++ ((n :: ns) ++ dropWhile is_word (dropWhile is_space s2))).
    rewrite <- E3, <- E1. reflexivity.
  - repeat split; trivial; discriminate.
Qed.

(** Every capture of the scan of [s], resumed after [pre0], is a capture
    of the whole text at some line start. *)
Lemma scan_sound (name s : jsstring) :
  forall pre0 skip bol,
    (bol = true -> lineStart pre0) ->
    In name (scan skip bol s) ->
    exists pre, capturedAt (pre0 ++ s) pre name.
Proof.
  induction s as [|c s IH]; intros pre0 skip bol Hb Hin; [destruct Hin |].
  assert (Hnext : is_lineTerminator c = true -> lineStart (pre0 ++ [c])).
  { intros Hc. right. eauto. }
  assert (Hrest : forall k, In name (scan k (is_lineTerminator c) s) ->
                   exists pre, capturedAt (pre0 ++ c :: s) pre name).
  { intros k Hk. destruct (IH (pre0 ++ [c]) k _ Hnext Hk) as [pre Hpre].
    exists pre. now rewrite <- app_assoc in Hpre. }
  cbn [scan] in Hin. destruct skip as [|k]; [| eauto].
  destruct bol; [| eauto].
  destruct (matchAt (c :: s)) as [[n len]|] eqn:E; [| eauto].
  destruct Hin as [-> | Hin]; [| eauto].
  exists pre0. apply matchAt_captured in E.
  destruct E as (_ & kw & ws & post & E & H).
  split; [now apply Hb |].
  exists kw, ws, post. split; [now rewrite E | exact H].
Qed.

Lemma matchAll_sound (content name : jsstring) :
  In name (matchAll content) -> exists pre, capturedAt content pre name.
Proof.
  intros H. apply (scan_sound name content [] 0 true); trivial.
  intros _. now left.
Qed.

Lemma unreserved_name (q text : jsstring) :
  skipped (File q text) = false -> q <> INDEX /\ q <> TEST.
Proof.
  simpl. intros H. apply orb_false_iff in H as [H1 H2].
  now rewrite !streq_neq in *.
Qed.

(** X3: whether the run completes or not, every name in the final set was
    captured in a file of the tree, at some depth, that is named neither
    [index.d.ts] nor [test.ts] and whose text contains a marker: at a
    line start of that text there is one tab, [interface] or [type], white
    space, and the name, which is a whole non-empty run of word
    characters. *)
Theorem collected_names_are_captures (src : list entry) (name : jsstring) :
  In name (finalTypes (main src)) ->
  exists q text pre,
    fileIn src q text /\ q <> INDEX /\ q <> TEST /\
    hasMarker text = true /\ capturedAt text pre name.
Proof.
  intros H.
  destruct (finalTypes_provenance src name H) as (q & text & Hf & Hs & Hm & Hn).
  destruct (matchAll_sound text name Hn) as [pre Hpre].
  destruct (unreserved_name q text Hs) as [H1 H2].
  exists q, text, pre. auto.
Qed.

Lemma collected_names_are_captures_witness :
  In (js "Bar") (finalTypes (main [File (js "c.ts") scenario_c])) /\
  exists q text pre,
    fileIn [File (js "c.ts") scenario_c] q text /\ q <> INDEX /\ q <> TEST /\
    hasMarker text = true /\ capturedAt text pre (js "Bar").
Proof.
  split; [vm_compute; now left |].
  apply (collected_names_are_captures [File (js "c.ts") scenario_c] (js "Bar")).
  vm_compute. now left.
Defined.

(** X4: the white space between the keyword and the identifier may span
    lines: the identifier after a tab at a line start, a keyword and white
    space of any kind, line breaks included, is added to the set, unless
    the text before the tab ends with a tab, a keyword and white space. *)
Theorem capture_spans_line_breaks (content pre name : jsstring)
    (collectedTypes : StringSet) :
  capturedAt content pre name -> ~ afterBareKeyword pre ->
  In name (extractTypesFromNamespace content collectedTypes).
Proof.
  intros (Hls & kw & ws & post & -> & Hk & Hw1 & Hw2 & Hn1 & Hn2 & Hp) Hab.
  apply extract_In. right. unfold matchAll.
  apply (scan_reaches (kw ++ ws ++ name ++ post) name
           (1 + List.length kw + List.length ws + List.length name)); trivial.
  - now apply matchAt_declaration.
  - destruct pre; [right; auto | left; simpl; lia].
Qed.

Lemma capture_spans_line_breaks_witness :
  let content :=
    tab ++ js "interface" ++ newline ++ newline ++ tab ++ js "Foo {}" in
  capturedAt content [] (js "Foo") /\
  ~ afterBareKeyword [] /\
  In (js "Foo") (extractTypesFromNamespace content []).
Proof.
  assert (Hc : capturedAt
                 (tab ++ js "interface" ++ newline ++ newline ++ tab
                    ++ js "Foo {}") [] (js "Foo")).
  { split; [now left |].
    exists (js "interface"), (newline ++ newline ++ tab), (js " {}").
    split; [reflexivity |]. split; [now left |].
    repeat split; discriminate. }
  assert (Hab : ~ afterBareKeyword []).
  { intros H. apply afterBareKeyword_has_tab in H. destruct H. }
  split; [exact Hc |]. split; [exact Hab |].
  apply (capture_spans_line_breaks _ [] (js "Foo") [] Hc Hab).
Defined.

(** ** Scanning a text again *)

Lemma fold_add_present (names : list jsstring) (c : StringSet) :
  (forall x, In x names -> In x c) -> fold_left add names c = c.
Proof.
  induction names as [|x names IH]; intros H; simpl; trivial.
  assert (E : add c x = c).
  { unfold add. destruct (has c x) eqn:Eh; trivial.
    assert (Hx : In x c) by (apply H; now left).
    apply has_In in Hx. congruence. }
  rewrite E. apply IH. intros y Hy. apply H. now right.
Qed.

(** X5: scanning a text a second time adds nothing: the set after two
    scans of the same text is the set after one, order included. *)
Theorem extract_again_adds_nothing (content : jsstring) (c : StringSet) :
  extractTypesFromNamespace content (extractTypesFromNamespace content c)
    = extractTypesFromNamespace content c.
Proof.
  unfold extractTypesFromNamespace at 1. apply fold_add_present.
  intros x Hx. apply extract_In. now right.
Qed.

(** ** The root artifact and the order of collection *)

Lemma sort_ext (c1 c2 : StringSet) :
  NoDup c1 -> NoDup c2 -> (forall n, In n c1 <-> In n c2) ->
  sort c1 = sort c2.
Proof.
  intros H1 H2 H. symmetry. apply sort_unique; trivial.
  - apply perm_trans with c2; [now apply NoDup_Permutation |].
    apply sort_Permutation.
  - now apply sort_Sorted_lt.
Qed.

(** X6: the root artifact does not depend on the order in which the names
    were collected: two sets with the same elements give the same text. *)
Theorem root_artifact_ignores_collection_order (c1 c2 : StringSet) :
  NoDup c1 -> NoDup c2 -> (forall n, In n c1 <-> In n c2) ->
  generateRootIndex c1 = generateRootIndex c2.
Proof.
  intros H1 H2 H.
  unfold generateRootIndex, generateModuleExports, sortedTypes.
  now rewrite (sort_ext c1 c2 H1 H2 H).
Qed.

Lemma root_artifact_ignores_collection_order_witness :
  NoDup [js "Bar"; js "Foo"] /\ NoDup [js "Foo"; js "Bar"] /\
  generateRootIndex [js "Bar"; js "Foo"] = generateRootIndex [js "Foo"; js "Bar"].
Proof.
  assert (H1 : NoDup [js "Bar"; js "Foo"]).
  { constructor; [intros [H | []]; discriminate |].
    constructor; [intros [] | constructor]. }
  assert (H2 : NoDup [js "Foo"; js "Bar"]).
  { constructor; [intros [H | []]; discriminate |].
    constructor; [intros [] | constructor]. }
  split; [exact H1 |]. split; [exact H2 |].
  apply (root_artifact_ignores_collection_order _ _ H1 H2).
  intros n. simpl. tauto.
Defined.

Lemma finalTypes_files (src1 src2 : list entry) (n : jsstring) :
  clean src2 = true ->
  (forall p text, skipped (File p text) = false -> hasMarker text = true ->
     fileIn src1 p text -> fileIn src2 p text) ->
  In n (finalTypes (main src1)) -> In n (finalTypes (main src2)).
Proof.
  intros Hc H Hn.
  destruct (finalTypes_provenance src1 n Hn) as (q & text & Hf & Hs & Hm & Hx).
  rewrite (main_clean src2 Hc). cbn [finalTypes].
  apply (collect_fileIn src2 q text); auto.
Qed.

Lemma main_rootIndex (src : list entry) :
  ending (main src) = Done ->
  rootIndex (main src) = Some (generateRootIndex (finalTypes (main src))).
Proof. intros H. apply main_Done in H. now rewrite (main_clean src H). Qed.

(** X7: the root artifact of a completed run is determined by the marked
    files with an unreserved name, as pairs of name and text: two trees
    with the same such files, wherever they lie and in whatever order
    they are listed, get the same root artifact. *)
Theorem root_artifact_of_marked_files (src1 src2 : list entry) :
  ending (main src1) = Done -> ending (main src2) = Done ->
  (forall p text, skipped (File p text) = false -> hasMarker text = true ->
     (fileIn src1 p text <-> fileIn src2 p text)) ->
  rootIndex (main src1) = rootIndex (main src2).
Proof.
  intros H1 H2 H. rewrite !main_rootIndex by trivial. f_equal.
  apply main_Done in H1, H2.
  unfold generateRootIndex, generateModuleExports, sortedTypes.
  rewrite (sort_ext (finalTypes (main src1)) (finalTypes (main src2)));
    trivial; try apply finalTypes_NoDup.
  intros n. split; apply finalTypes_files; trivial;
    intros p text Hs Hm; now apply H.
Qed.

Lemma root_artifact_of_marked_files_witness :
  let src1 := [File (js "a.d.ts") scenario_c; File (js "notes.ts") (js "x")] in
  let src2 := [Dir (js "sub") [File (js "a.d.ts") scenario_c]] in
  ending (main src1) = Done /\ ending (main src2) = Done /\
  srcTree (main src1) <> srcTree (main src2) /\
  rootIndex (main src1) = rootIndex (main src2).
Proof.
  split; [reflexivity |]. split; [reflexivity |]. split; [discriminate |].
  apply (root_artifact_of_marked_files
           [File (js "a.d.ts") scenario_c; File (js "notes.ts") (js "x")]
           [Dir (js "sub") [File (js "a.d.ts") scenario_c]]);
    try reflexivity.
  intros p text Hs Hm. split; intros H.
  - inversion H as [l p' c' Hin | l q sub p' c' Hin Hsub]; subst.
    + destruct Hin as [E | [E | []]]; injection E as <- <-.
      * apply fileIn_below with (js "sub") [File (js "a.d.ts") scenario_c].
        -- now left.
        -- apply fileIn_here. now left.
      * discriminate.
    + destruct Hin as [E | [E | []]]; discriminate.
  - inversion H as [l p' c' Hin | l q sub p' c' Hin Hsub]; subst.
    + destruct Hin as [E | []]; discriminate.
    + destruct Hin as [E | []]; injection E as <- <-.
      inversion Hsub as [l p' c' Hin | l q sub p' c' Hin Hsub']; subst.
      * destruct Hin as [E | []]; injection E as <- <-.
        apply fileIn_here. now left.
      * destruct Hin as [E | []]; discriminate.
Defined.

(** X8: a tree whose marked files with an unreserved name contain no tab
    gives an empty set of names, and the module block of its root artifact
    is the opening line, an empty line and the closing brace. *)
Theorem no_tab_no_export (src : list entry) :
  (forall p text, fileIn src p text -> skipped (File p text) = false ->
     hasMarker text = true -> ~ In 9%N text) ->
  finalTypes (main src) = [] /\
  generateModuleExports (finalTypes (main src)) =
    js "declare module " ++ dquote ++ js "acode" ++ dquote ++ js " {"
      ++ newline ++ newline ++ js "}".
Proof.
  intros H.
  assert (E : finalTypes (main src) = []).
  { destruct (finalTypes (main src)) as [|n c] eqn:E; trivial. exfalso.
    assert (Hn : In n (finalTypes (main src))) by (rewrite E; now left).
    destruct (finalTypes_provenance src n Hn)
      as (q & text & Hf & Hs & Hm & Hx).
    destruct (matchAll_sound text n Hx) as (pre & _ & kw & ws & post & Et & _).
    apply (H q text Hf Hs Hm). rewrite Et.
    apply in_or_app. right. now left. }
  rewrite E. split; reflexivity.
Qed.

Lemma no_tab_no_export_witness :
  let text := js "namespace Acode {" ++ newline
                ++ js "  interface Foo {}" ++ newline ++ js "}" in
  hasMarker text = true /\
  finalTypes (main [File (js "a.d.ts") text]) = [] /\
  generateModuleExports (finalTypes (main [File (js "a.d.ts") text])) =
    js "declare module " ++ dquote ++ js "acode" ++ dquote ++ js " {"
      ++ newline ++ newline ++ js "}".
Proof.
  split; [reflexivity |].
  apply (no_tab_no_export
           [File (js "a.d.ts")
              (js "namespace Acode {" ++ newline
                 ++ js "  interface Foo {}" ++ newline ++ js "}")]).
  intros p text H _ _.
  inversion H as [l p' c' Hin | l q sub p' c' Hin Hsub]; subst.
  - destruct Hin as [E | []]; injection E as <- <-.
    vm_compute. intros Ht.
    repeat (destruct Ht as [Ht | Ht]; [discriminate |]). exact Ht.
  - destruct Hin as [E | []]; discriminate.
Defined.

(** ** The reference lines of a completed loop *)

(** The local [refs] when the loop of [linkTypes] completes. *)
Lemma forEach_Done_refs (l l' : list entry) (refs0 refs : list jsstring)
    (c c' : StringSet) :
  forEach visit l (refs0, c) = (l', (refs, c'), Done) ->
  refs = refs0 ++ refsOf l.
Proof.
  assert (Hall : Forall visit_closed l)
    by (apply Forall_forall; intros e _; apply visit_is_closed).
  destruct (forallb cleanEntry l) eqn:Hc.
  - rewrite (forEach_visit_clean l Hall Hc). intros H. now injection H.
  - destruct (forEach_visit_unclean l Hall Hc (refs0, c))
      as (l1 & st1 & x & E).
    rewrite E. discriminate.
Qed.

Lemma fileRef_inj (p q : jsstring) : fileRef p = fileRef q -> p = q.
Proof.
  unfold fileRef. intros H. do 3 apply app_inv_head in H.
  now apply app_inv_tail in H.
Qed.

Lemma dirRef_inj (p q : jsstring) : dirRef p = dirRef q -> p = q.
Proof.
  unfold dirRef. intros H. do 3 apply app_inv_head in H.
  now apply app_inv_tail in H.
Qed.

Lemma fileRef_dirRef (p q : jsstring) :
  fileRef p = dirRef q -> p = q ++ js "/index.d.ts".
Proof.
  unfold fileRef, dirRef. intros H. do 3 apply app_inv_head in H.
  rewrite (app_assoc q) in H. now apply app_inv_tail in H.
Qed.

Lemma refLine_In (l : list entry) (r : jsstring) :
  In r (refsOf l) ->
  exists e, In e l /\ skipped e = false /\ refLine e = r.
Proof.
  unfold refsOf. rewrite in_map_iff. intros (e & E & H).
  apply filter_In in H as [H1 H2]. exists e.
  destruct (skipped e); [discriminate | auto].
Qed.

Lemma fileRef_not_dirRef (p q : jsstring) :
  fileRef p = dirRef q -> noSlash p = false.
Proof.
  intros H. apply fileRef_dirRef in H. subst p. unfold noSlash.
  rewrite forallb_app. apply andb_false_iff. now right.
Qed.

Lemma refLine_inj (e1 e2 : entry) :
  noSlash (entryName e1) = true -> noSlash (entryName e2) = true ->
  refLine e1 = refLine e2 -> entryName e1 = entryName e2.
Proof.
  destruct e1 as [p c|p sub], e2 as [q d|q sub']; simpl; intros H1 H2 H.
  - now apply fileRef_inj.
  - apply fileRef_not_dirRef in H. congruence.
  - symmetry in H. apply fileRef_not_dirRef in H. congruence.
  - now apply dirRef_inj.
Qed.

Lemma refsOf_NoDup (l : list entry) :
  NoDup (map entryName l) ->
  forallb (fun e => noSlash (entryName e)) l = true ->
  NoDup (refsOf l).
Proof.
  induction l as [|e l IH]; intros Hn Hs.
  - constructor.
  - simpl in Hn, Hs. apply NoDup_cons_iff in Hn as [Hn1 Hn2].
    apply andb_true_iff in Hs as [Hs1 Hs2].
    rewrite refsOf_cons. destruct (skipped e); simpl; [now apply IH |].
    constructor; [| now apply IH].
    intros Hin. apply refLine_In in Hin as (e' & Hin & _ & E).
    apply Hn1. apply in_map_iff. exists e'. split; trivial.
    apply refLine_inj; trivial.
    rewrite forallb_forall in Hs2. now apply Hs2.
Qed.

(** X9: in a listing whose entries have pairwise distinct names without a
    path separator, as the entries of a directory have, the reference
    lines that [linkTypes] has gathered when its loop completes are
    pairwise distinct, one for every entry that is not a file with a
    reserved name. *)
Theorem references_distinct (l l' : list entry) (refs : list jsstring)
    (c c' : StringSet) :
  forEach visit l ([], c) = (l', (refs, c'), Done) ->
  NoDup (map entryName l) ->
  forallb (fun e => noSlash (entryName e)) l = true ->
  NoDup refs /\
  List.length refs = List.length (filter (fun e => negb (skipped e)) l).
Proof.
  intros H Hn Hs. apply forEach_Done_refs in H. simpl in H. subst refs.
  split; [now apply refsOf_NoDup |].
  unfold refsOf. apply length_map.
Qed.

Lemma references_distinct_witness :
  let l := [File (js "a.ts") (js "x"); Dir (js "sub") []; File TEST (js "y")] in
  exists l' refs,
    forEach visit l ([], []) = (l', (refs, []), Done) /\
    NoDup refs /\ List.length refs = 2.
Proof.
  exists [File (js "a.ts") (js "x");
          Dir (js "sub") [File INDEX newline]; File TEST (js "y")],
         [fileRef (js "a.ts"); dirRef (js "sub")].
  split; [reflexivity |].
  apply (references_distinct
           [File (js "a.ts") (js "x"); Dir (js "sub") []; File TEST (js "y")]
           [File (js "a.ts") (js "x");
            Dir (js "sub") [File INDEX newline]; File TEST (js "y")]
           [fileRef (js "a.ts"); dirRef (js "sub")] [] []).
  - reflexivity.
  - repeat constructor; simpl; intuition discriminate.
  - reflexivity.
Defined.

(** X10: no reference line gathered by a completed loop of [linkTypes] is
    the line of a file named [index.d.ts] or [test.ts], whatever the
    listing holds: an index never references itself. *)
Theorem references_omit_reserved_files (l l' : list entry)
    (refs : list jsstring) (c c' : StringSet) :
  forEach visit l ([], c) = (l', (refs, c'), Done) ->
  ~ In (fileRef INDEX) refs /\ ~ In (fileRef TEST) refs.
Proof.
  intros H. apply forEach_Done_refs in H. simpl in H. subst refs.
  assert (G : forall p, skipped (File p []) = true ->
                ~ In 47%N p -> ~ In (fileRef p) (refsOf l)).
  { intros p Hp Hslash Hin.
    apply refLine_In in Hin as ([q d|q sub] & _ & Hs & E); simpl in E.
    - apply fileRef_inj in E. subst q. simpl in Hs, Hp. congruence.
    - symmetry in E. apply fileRef_dirRef in E. apply Hslash. rewrite E.
      apply in_or_app. right. now left. }
  split; apply G; trivial; vm_compute; intuition discriminate.
Qed.

Lemma references_omit_reserved_files_witness :
  let l := [File INDEX (js "old"); Dir TEST []; File TEST (js "y")] in
  exists l' refs,
    forEach visit l ([], []) = (l', (refs, []), Done) /\
    refs = [dirRef TEST] /\
    ~ In (fileRef INDEX) refs /\ ~ In (fileRef TEST) refs.
Proof.
  exists [File INDEX (js "old"); Dir TEST [File INDEX newline];
          File TEST (js "y")],
         [dirRef TEST].
  split; [reflexivity |]. split; [reflexivity |].
  apply (references_omit_reserved_files
           [File INDEX (js "old"); Dir TEST []; File TEST (js "y")]
           [File INDEX (js "old"); Dir TEST [File INDEX newline];
            File TEST (js "y")]
           [dirRef TEST] [] []).
  reflexivity.
Defined.

(** ** The files of [src/] after an aborted run *)








(** ** The export lines *)

Lemma app_same_length (a b x y : jsstring) :
  a ++ x = b ++ y -> List.length a = List.length b -> a = b.
Proof.
  revert b; induction a as [|c a IH]; intros [|d b] E Hl;
    try discriminate; trivial.
  simpl in E, Hl. injection E as -> E. f_equal. apply IH; trivial. lia.
Qed.

Lemma exportLine_inj (t u : jsstring) : exportLine t = exportLine u -> t = u.
Proof.
  unfold exportLine. intros H. do 2 apply app_inv_head in H.
  apply app_same_length in H; trivial.
  apply (f_equal (@List.length codeunit)) in H.
  rewrite !length_app in H. lia.
Qed.

(** X12: the export lines of the module block of any run are pairwise
    distinct, and two different names never share a line: no name is
    exported twice. *)
Theorem module_exports_distinct (src : list entry) :
  NoDup (map exportLine (sortedTypes (finalTypes (main src)))) /\
  forall t u, exportLine t = exportLine u -> t = u.
Proof.
  split; [| apply exportLine_inj].
  apply Finite.Injective_map_NoDup; [exact exportLine_inj |].
  unfold sortedTypes.
  apply (Permutation_NoDup (sort_Permutation (finalTypes (main src)))).
  apply finalTypes_NoDup.
Qed.

(** ** The report *)

Lemma stdout_main (src : list entry) :
  stdout src =
  match ending (main src) with
  | Done => report (finalTypes (main src))
  | Threw _ => []
  end.
Proof.
  unfold stdout, main. now destruct (linkTypes src []) as [[l c] [|x]].
Qed.

(** X13: the number in the second line of the report of a completed run
    is the number of export lines of the module block the run generated;
    a run that aborts prints no report. *)
Theorem report_counts_export_lines (src : list entry) :
  (ending (main src) = Done ->
   stdout src =
     [ CHECK ++ js " Linked types in src/";
       CHECK ++ js " Generated "
         ++ decimal (List.length
                       (map exportLine (sortedTypes (finalTypes (main src)))))
         ++ js " type exports in declare module " ++ dquote ++ js "acode"
         ++ dquote;
       CHECK ++ js " Updated index.d.ts" ]) /\
  (ending (main src) <> Done -> stdout src = []).
Proof.
  rewrite stdout_main. split; intros H.
  - rewrite H. unfold report, sortedTypes.
    rewrite length_map.
    now rewrite <- (Permutation_length (sort_Permutation (finalTypes (main src)))).
  - destruct (ending (main src)); [now elim H | reflexivity].
Qed.

Lemma report_counts_export_lines_witness :
  ending (main (scenario [])) = Done /\
  stdout (scenario []) =
    [ CHECK ++ js " Linked types in src/";
      CHECK ++ js " Generated 1 type exports in declare module "
        ++ dquote ++ js "acode" ++ dquote;
      CHECK ++ js " Updated index.d.ts" ].
Proof.
  split; [reflexivity |].
  apply (proj1 (report_counts_export_lines (scenario []))).
  reflexivity.
Defined.
